(** * api_diff_checker: the comparison engine and the execution coordinator

    A shallow embedding of the Go packages [comparator], [config],
    [executor] and [core], and the properties of their reports.

    Go values are modelled as follows.
    - [string] and [[]byte] are both sequences of bytes: Rocq's [string];
      the conversions [string(b)] and [[]byte(s)] are the identity.
    - [int] indices and lengths are [nat]; [time.Duration] is [Z]
      (nanoseconds, 64 bits, wrap-around written out where it can occur).
    - [map[string]T] is [gmap string T]; a [map[string]bool] whose values
      are all [true] is a [gset string].
    - [interface{}] holding a decoded JSON document is the type [JSON].
    - an [error] is its message, [nil] is [None]; a function returning
      [(T, error)] whose [T] is only read when the error is [nil] returns
      a [Result T].
    - functions of libraries outside the repository (encoding/json,
      go-difflib, jsondiff, go-shellwords, os, os/exec, context, time) are
      fields of type classes, one per library.

    The sources hold two revisions of the comparator, of the executor and
    of the engine.  The model follows the later ones, which belong
    together: the comparator with the plain text path, the executor with
    per-command timeouts, and the engine with test cases and
    cancellation. *)

From Stdlib Require Import Ascii PrimFloat SpecFloat FloatOps.
From stdpp Require Import base strings gmap list sorting pretty.

Local Open Scope string_scope.
Local Open Scope list_scope.
Local Open Scope nat_scope.

(** ** Go runtime and standard library helpers *)

Definition error := string.

Inductive Result (A : Type) : Type :=
  | Ok (a : A)
  | Err (e : error).
Arguments Ok {A} a.
Arguments Err {A} e.

(** [sort.Strings]: ascending, byte-wise lexicographic.  The library's
    algorithm is not specified; any algorithm returns the one sorted
    permutation of its input (see [sort_Strings_unique]). *)
Definition sort_Strings (x : list string) : list string :=
  merge_sort String.le x.

(** [strings.Join]. *)
Fixpoint Join (elems : list string) (sep : string) : string :=
  match elems with
  | [] => ""
  | [x] => x
  | x :: rest => x +:+ sep +:+ Join rest sep
  end.

(** [fmt.Sprintf("%d", n)] for a non-negative [int]. *)
Definition Itoa (n : nat) : string := pretty n.

(** The line feed, carriage return and tab characters. *)
Definition LF : string := String "010"%char "".
Definition CR : string := String "013"%char "".
Definition TAB : string := String "009"%char "".

(** ** Package comparator *)

Module comparator.

Definition float64 := float.

(** What [json.Unmarshal] stores in an [interface{}]. *)
#[local] Unset Elimination Schemes.
Inductive JSON : Type :=
  | JNull
  | JBool (b : bool)
  | JNumber (f : float64)
  | JString (s : string)
  | JArray (l : list JSON)
  | JObject (m : gmap string JSON).
#[local] Set Elimination Schemes.
Arguments JNumber f%_float.

Global Instance JSON_inhabited : Inhabited JSON := populate JNull.

Record DiffResult := {
  TextDiff : string;
  JsonPatch : string;
  Summary : string;
  IsJSON : bool
}.

Record CompareOptions := { KeysOnly : bool }.

(** encoding/json and [fmt]'s [%v] verb on decoded values. *)
Class JSONCodec := {
  Unmarshal : string → Result JSON;
  Marshal : JSON → Result string;
  MarshalIndent : JSON → string → string → Result string;
  FormatV : JSON → string
}.

(** github.com/pmezard/go-difflib. *)
Record UnifiedDiff := {
  A : list string;
  B : list string;
  FromFile : string;
  ToFile : string;
  Context : nat
}.

Class DiffLib := {
  SplitLines : string → list string;
  GetUnifiedDiffString : UnifiedDiff → string * option error
}.

(** github.com/wI2L/jsondiff: an RFC 6902 patch and its serialization. *)
Inductive OpType := OpAdd | OpRemove | OpReplace.

Record Operation := {
  Type_ : OpType;
  Path : string;
  Value : option JSON
}.

Definition Patch := list Operation.

Class PatchLib := {
  jsondiff_Compare : JSON → JSON → Result Patch;
  MarshalIndentPatch : Patch → string → string → Result string
}.

Section functions.
Context `{codec : !JSONCodec, difflib : !DiffLib, patchlib : !PatchLib}.

Definition isValidJSON (data : string) : bool :=
  match Unmarshal data with
  | Ok _ => true
  | Err _ => false
  end.

Definition compareAsText (original modified name1 name2 : string)
    (isJSON1 isJSON2 : bool) : Result DiffResult :=
  let diff := {| A := SplitLines original; B := SplitLines modified;
                 FromFile := name1; ToFile := name2; Context := 3 |} in
  match GetUnifiedDiffString diff with
  | (_, Some err) => Err ("failed to create text diff: " +:+ err)
  | (textDiff, None) =>
    let summary :=
      if negb isJSON1 && negb isJSON2 then "Both responses are non-JSON content"
      else if negb isJSON1 then "Response from " +:+ name1 +:+ " is not valid JSON"
      else "Response from " +:+ name2 +:+ " is not valid JSON" in
    let '(summary, textDiff) :=
      if decide (original = modified)
      then (summary +:+ " (content is identical)", "")
      else (summary, textDiff) in
    Ok {| TextDiff := textDiff; JsonPatch := "[]"; Summary := summary;
          IsJSON := false |}
  end.

(** The [default] case of the type switch, ["<unknown>"], is not reached
    by a decoded document. *)
Fixpoint extractKeys (v : JSON) : JSON :=
  match v with
  | JObject val => JObject (extractKeys <$> val)
  | JArray val =>
    match val with
    | first :: _ => JArray [extractKeys first]
    | [] => JArray []
    end
  | JString _ => JString "<string>"
  | JNumber _ => JString "<number>"
  | JBool _ => JString "<boolean>"
  | JNull => JString "<null>"
  end.

Fixpoint collectAllKeys (v : JSON) (prefix : string) : gset string :=
  match v with
  | JObject val =>
    map_fold (λ k child keys,
      let fullKey := if decide (prefix = "") then k else prefix +:+ "." +:+ k in
      {[ fullKey ]} ∪ collectAllKeys child fullKey ∪ keys) ∅ val
  | JArray (first :: _) => collectAllKeys first (prefix +:+ "[]")
  | _ => ∅
  end.

Definition summarizeKeyDifferences (v1 v2 : JSON) : string :=
  let keys1 := collectAllKeys v1 "" in
  let keys2 := collectAllKeys v2 "" in
  let removed :=
    (λ k, "Key '" +:+ k +:+ "' removed") <$>
      filter (λ k, k ∉ keys2) (elements keys1) in
  let added :=
    (λ k, "Key '" +:+ k +:+ "' added") <$>
      filter (λ k, k ∉ keys1) (elements keys2) in
  let changes := sort_Strings (removed ++ added) in
  if decide (length changes = 0) then "No structural changes (keys match)"
  else Join changes ", ".

Definition deepEqual (v1 v2 : JSON) : bool :=
  match Marshal v1, Marshal v2 with
  | Ok b1, Ok b2 => bool_decide (b1 = b2)
  | _, _ => false
  end.

(** The counting loop [for i := 0; i < len1; i++] of
    [summarizeArrayDifferences], which runs when [len1 = len2]. *)
Definition changedCount (arr1 arr2 : list JSON) : nat :=
  foldl (λ changedCount i,
    if deepEqual (arr1 !!! i) (arr2 !!! i) then changedCount
    else changedCount + 1) 0 (seq 0 (length arr1)).

Definition summarizeArrayDifferences (arr1 arr2 : list JSON) : string :=
  let len1 := length arr1 in
  let len2 := length arr2 in
  if decide (len1 ≠ len2)
  then "Array length changed: " +:+ Itoa len1 +:+ " → " +:+ Itoa len2 +:+ " items"
  else
    let changedCount := changedCount arr1 arr2 in
    if decide (changedCount = 0) then "No top-level changes"
    else "Array: " +:+ Itoa changedCount +:+ " of " +:+ Itoa len1 +:+ " items changed".

Definition objectChanges (m1 m2 : gmap string JSON) : list string :=
  let first :=
    omap (λ kv : string * JSON,
      match m2 !! kv.1 with
      | None => Some ("Field '" +:+ kv.1 +:+ "' removed")
      | Some val2 =>
        if deepEqual kv.2 val2 then None
        else Some ("Field '" +:+ kv.1 +:+ "' changed")
      end) (map_to_list m1) in
  let second :=
    omap (λ kv : string * JSON,
      match m1 !! kv.1 with
      | None => Some ("Field '" +:+ kv.1 +:+ "' added")
      | Some _ => None
      end) (map_to_list m2) in
  first ++ second.

Definition summarizeDifferences (v1 v2 : JSON) : string :=
  match v1, v2 with
  | JArray arr1, JArray arr2 => summarizeArrayDifferences arr1 arr2
  | JObject m1, JObject m2 =>
    let changes := sort_Strings (objectChanges m1 m2) in
    if decide (length changes = 0) then "No top-level changes"
    else Join changes ", "
  | _, _ =>
    if decide (FormatV v1 = FormatV v2) then "No top-level changes"
    else "Top-level value changed"
  end.

Definition compareAsJSON (original modified name1 name2 : string)
    (opts : CompareOptions) : Result DiffResult :=
  match Unmarshal original with
  | Err err => Err ("invalid json in original: " +:+ err)
  | Ok v1 =>
  match Unmarshal modified with
  | Err err => Err ("invalid json in modified: " +:+ err)
  | Ok v2 =>
    let bytes_of r := match r with Ok b => b | Err _ => "" end in
    let '(v1, v2, original, modified) :=
      if KeysOnly opts
      then (extractKeys v1, extractKeys v2,
            bytes_of (MarshalIndent (extractKeys v1) "" "  "),
            bytes_of (MarshalIndent (extractKeys v2) "" "  "))
      else (v1, v2, original, modified) in
    let diff := {| A := SplitLines original; B := SplitLines modified;
                   FromFile := name1; ToFile := name2; Context := 3 |} in
    let textDiff :=
      match GetUnifiedDiffString diff with
      | (textDiff, None) => textDiff
      | (_, Some err) => "Failed to create diff: " +:+ err
      end in
    match jsondiff_Compare v1 v2 with
    | Err err => Err ("jsondiff failed: " +:+ err)
    | Ok patch =>
      let patchBytes :=
        match MarshalIndentPatch patch "" "  " with
        | Ok b => b
        | Err _ => "[]"
        end in
      let summary :=
        if KeysOnly opts then summarizeKeyDifferences v1 v2
        else summarizeDifferences v1 v2 in
      Ok {| TextDiff := textDiff; JsonPatch := patchBytes;
            Summary := summary; IsJSON := true |}
    end
  end
  end.

Definition CompareWithOptions (original modified name1 name2 : string)
    (opts : CompareOptions) : Result DiffResult :=
  let isJSON1 := isValidJSON original in
  let isJSON2 := isValidJSON modified in
  if negb isJSON1 || negb isJSON2
  then compareAsText original modified name1 name2 isJSON1 isJSON2
  else compareAsJSON original modified name1 name2 opts.

Definition Compare (original modified name1 name2 : string) : Result DiffResult :=
  CompareWithOptions original modified name1 name2 {| KeysOnly := false |}.

End functions.

End comparator.

(** ** Package config *)

Module config.

(** [time.Second] and [DefaultTimeout = 30 * time.Second], in nanoseconds. *)
Definition Second : Z := 1000000000.
Definition DefaultTimeout : Z := 30 * Second.

(** Multiplication of two [int64] values wraps around. *)
Definition wrap64 (z : Z) : Z := ((z + 2 ^ 63) `mod` 2 ^ 64 - 2 ^ 63)%Z.

Record TestCase := {
  TestCase_Name : string;
  TestCase_Commands : gmap string string
}.

Record Config := {
  Versions : gmap string string;
  Commands : list string;
  TestCases : list TestCase;
  KeysOnly : bool;
  Timeout : Z
}.

Definition GetTimeout (c : Config) : Z :=
  if decide (Timeout c ≤ 0)%Z then DefaultTimeout
  else wrap64 (Timeout c * Second).

(** The inner loop [for version := range c.Versions { commands[version] = cmd }]. *)
Definition sharedCommands (versions : gmap string string) (cmd : string)
    : gmap string string :=
  map_fold (λ version _ commands, <[version := cmd]> commands) ∅ versions.

Definition GetTestCases (c : Config) : list TestCase :=
  if decide (0 < length (TestCases c)) then TestCases c
  else
    imap (λ i cmd,
      {| TestCase_Name := "Command " +:+ Itoa (i + 1);
         TestCase_Commands := sharedCommands (Versions c) cmd |}) (Commands c).

End config.

(** ** Package executor *)

Module executor.

(** [context.Context.Err()] when it is not [nil]. *)
Inductive ctxError := Canceled | DeadlineExceeded.

Definition ctxError_Error (e : ctxError) : error :=
  match e with
  | Canceled => "context canceled"
  | DeadlineExceeded => "context deadline exceeded"
  end.

Global Instance ctxError_eq_dec : EqDecision ctxError.
Proof. solve_decision. Defined.

Definition DefaultTimeout : Z := config.DefaultTimeout.

(** The fields of [ExecutionResult] that do not hold a clock reading. *)
Record ExecutionResult := {
  Command : string;
  Version : string;
  Response : string;
  Error : string;
  Stderr : string;
  TimedOut : bool
}.

(** What [cmd.Run()] leaves behind: the captured output, its error, and
    the state [ctx.Err()] of the command's own timeout context read right
    after it. *)
Record ProcessRun := {
  stdout : string;
  stderr : string;
  runErr : option error;
  ctxErr : option ctxError
}.

(** strings, regexp, go-shellwords, os/exec and time.  [RunCommand] is
    [exec.CommandContext(ctx, name, args...).Run()] under a context with the
    given timeout; its first argument identifies the scenario during which
    the call is made, its second the version label the call is made for, so
    that equal command lines may end differently at different moments. *)
Class Sys := {
  ReplaceAll : string → string → string → string;
  ReplaceAllSpaceRuns : string → string → string;
  TrimSpace : string → string;
  shellwords_Parse : string → Result (list string);
  DurationString : Z → string;
  RunCommand : nat → string → string → list string → Z → ProcessRun
}.

Section functions.
Context `{sys : !Sys}.

Definition normalizeCommand (cmd : string) : string :=
  let cmd := ReplaceAll cmd ("\" +:+ LF) " " in
  let cmd := ReplaceAll cmd ("\" +:+ CR +:+ LF) " " in
  let cmd := ReplaceAll cmd "\   " " " in
  let cmd := ReplaceAll cmd "\  " " " in
  let cmd := ReplaceAll cmd "\ " " " in
  let cmd := ReplaceAll cmd TAB " " in
  let cmd := ReplaceAll cmd CR "" in
  let cmd := ReplaceAllSpaceRuns cmd " " in
  TrimSpace cmd.

(** [Execute] always returns a non-nil [*ExecutionResult]; the pair is the
    result and the error. *)
Definition Execute (call : nat) (commandTmpl version baseURL : string)
    (timeout : Z) : ExecutionResult * option error :=
  let timeout := if decide (timeout ≤ 0)%Z then DefaultTimeout else timeout in
  let normalizedCmd := normalizeCommand commandTmpl in
  let finalCmdStr := ReplaceAll normalizedCmd "{{BASE_URL}}" baseURL in
  match shellwords_Parse finalCmdStr with
  | Err err =>
    ({| Command := finalCmdStr; Version := version; Response := "";
        Error := "failed to parse command: " +:+ err; Stderr := "";
        TimedOut := false |},
     Some ("failed to parse command: " +:+ err))
  | Ok [] =>
    ({| Command := finalCmdStr; Version := version; Response := "";
        Error := "empty command after parsing"; Stderr := "";
        TimedOut := false |},
     Some "empty command")
  | Ok (cmdName :: cmdArgs) =>
    let p := RunCommand call version cmdName cmdArgs timeout in
    let Stderr_ := TrimSpace (stderr p) in
    if decide (ctxErr p = Some DeadlineExceeded) then
      ({| Command := finalCmdStr; Version := version; Response := "";
          Error := "command timed out after " +:+ DurationString timeout;
          Stderr := Stderr_; TimedOut := true |},
       Some (ctxError_Error DeadlineExceeded))
    else
      match runErr p with
      | Some err =>
        let msg := "execution failed: " +:+ err in
        let msg := if decide (Stderr_ ≠ "")
                   then msg +:+ " | stderr: " +:+ Stderr_ else msg in
        ({| Command := finalCmdStr; Version := version; Response := "";
            Error := msg; Stderr := Stderr_; TimedOut := false |},
         Some err)
      | None =>
        ({| Command := finalCmdStr; Version := version; Response := stdout p;
            Error := ""; Stderr := Stderr_; TimedOut := false |},
         None)
      end
  end.

End functions.

End executor.

(** ** Package core *)

Module core.

Import executor.

Record ExecInfo := {
  ExecInfo_Version : string;
  ExecInfo_File : string;
  ExecInfo_Error : string;
  ExecInfo_TimedOut : bool
}.

(** [DiffResult] is a pointer: [nil] is [None]. *)
Record VersionDiff := {
  VersionA : string;
  VersionB : string;
  DiffResult : option comparator.DiffResult;
  OldContent : string;
  NewContent : string;
  VersionDiff_Error : string
}.

Record CommandResult := {
  TestCaseName : string;
  CommandResult_Commands : gmap string string;
  CommandResult_Command : string;
  Diffs : list VersionDiff;
  CommandResult_ExecInfo : list ExecInfo
}.

Record RunResult := {
  CommandResults : list CommandResult;
  Errors : list string
}.

Record execResult := {
  version : string;
  filePath : string;
  execInfo : ExecInfo;
  err : option error
}.

(** The zero value of [CommandResult], which [make([]CommandResult, n)]
    fills the slice with (a nil map reads as the empty map). *)
Definition zeroCommandResult : CommandResult :=
  {| TestCaseName := ""; CommandResult_Commands := ∅;
     CommandResult_Command := ""; Diffs := []; CommandResult_ExecInfo := [] |}.

(** The collaborators of the engine.  [SaveResponse] is the response store
    ([Store.SaveResponse], returning the path when its error is nil),
    [ReadFile] is [os.ReadFile], and [ctxDone i] is [ctx.Err()] at the moment
    the loop polls [ctx.Done()] before scenario [i] ([None] while the context
    is live); the context is the caller's, under the run's own deadline
    when the caller set none.  As for [RunCommand], a first argument names the scenario
    during which the call happens.  Logging and console output do not feed
    the report and are left out, and none of the collaborators wired in by
    [main] panics, so the deferred [recover] of a task never fires. *)
Class Env := {
  SaveResponse : nat → string → string → string → option error → Result string;
  ReadFile : nat → string → Result string;
  ctxDone : nat → option ctxError
}.

(** What the Go runtime leaves open: the order in which [range] visits the
    keys of [cfg.Versions], and the order in which the tasks of scenario
    [i] deliver their results on the channel. *)
Record Schedule := {
  rangeVersions : list string → list string;
  receive : nat → list execResult → list execResult
}.

Definition fair (s : Schedule) : Prop :=
  (∀ keys, rangeVersions s keys ≡ₚ keys) ∧
  (∀ i sent, receive s i sent ≡ₚ sent).

(** [joinStrings]. *)
Definition joinStrings (strs : list string) (sep : string) : string :=
  match strs with
  | [] => ""
  | first :: rest => foldl (λ result s, result +:+ sep +:+ s) first rest
  end.

(** [sort.Slice(cmdRes.ExecInfo, less)] with [less] comparing the version
    labels.  [sort.Slice] is not stable; the labels of one scenario are
    pairwise distinct, which leaves one possible result
    (see [sort_ExecInfo_unique]). *)
Definition ExecInfo_le (a b : ExecInfo) : Prop :=
  String.le (ExecInfo_Version a) (ExecInfo_Version b).

Global Instance ExecInfo_le_dec : RelDecision ExecInfo_le.
Proof. intros a b. unfold ExecInfo_le. apply _. Defined.

Definition sort_ExecInfo (l : list ExecInfo) : list ExecInfo :=
  merge_sort ExecInfo_le l.

Section functions.
Context `{codec : !comparator.JSONCodec, difflib : !comparator.DiffLib,
          patchlib : !comparator.PatchLib}.
Context `{sys : !Sys, env : !Env}.

Definition compareFiles (tcIdx : nat) (file1 file2 v1 v2 : string)
    (keysOnly : bool) : Result (comparator.DiffResult * string * string) :=
  match ReadFile tcIdx file1 with
  | Err err => Err ("read file1 error: " +:+ err)
  | Ok b1 =>
  match ReadFile tcIdx file2 with
  | Err err => Err ("read file2 error: " +:+ err)
  | Ok b2 =>
    if decide (String.length b1 = 0)
    then Err ("empty response content for " +:+ v1)
    else if decide (String.length b2 = 0)
    then Err ("empty response content for " +:+ v2)
    else
      let opts := {| comparator.KeysOnly := keysOnly |} in
      match comparator.CompareWithOptions b1 b2 file1 file2 opts with
      | Err err => Err err
      | Ok diff => Ok (diff, b1, b2)
      end
  end
  end.

(** The body of the goroutine launched for version [v] of scenario [tcIdx]:
    the single [execResult] it sends on the channel. *)
Definition task (tcIdx : nat) (timeout : Z) (v url cmdRaw : string) : execResult :=
  let '(res, err) := Execute tcIdx cmdRaw v url timeout in
  match err with
  | Some err =>
    let _ := SaveResponse tcIdx cmdRaw v "" (Some err) in
    {| version := v; filePath := "";
       execInfo :=
         {| ExecInfo_Version := v; ExecInfo_File := "";
            ExecInfo_Error :=
              if TimedOut res then "timeout after " +:+ DurationString timeout
              else err;
            ExecInfo_TimedOut := TimedOut res |};
       err := Some err |}
  | None =>
    match SaveResponse tcIdx cmdRaw v (Response res) None with
    | Err saveErr =>
      {| version := v; filePath := "";
         execInfo :=
           {| ExecInfo_Version := v; ExecInfo_File := "";
              ExecInfo_Error := "Save failed: " +:+ saveErr;
              ExecInfo_TimedOut := TimedOut res |};
         err := Some saveErr |}
    | Ok path =>
      {| version := v; filePath := path;
         execInfo :=
           {| ExecInfo_Version := v; ExecInfo_File := path;
              ExecInfo_Error := ""; ExecInfo_TimedOut := TimedOut res |};
         err := None |}
    end
  end.

(** The tasks launched for one scenario, in launch order: one per version
    label that has a command in the scenario. *)
Definition launch (cfg : config.Config) (versions : list string) (timeout : Z)
    (tcIdx : nat) (testCase : config.TestCase) : list execResult :=
  omap (λ vName,
    let baseURL := default "" (config.Versions cfg !! vName) in
    match config.TestCase_Commands testCase !! vName with
    | Some cmdForVersion => Some (task tcIdx timeout vName baseURL cmdForVersion)
    | None => None
    end) versions.

(** The map [results] built while draining the channel. *)
Definition collect (received : list execResult) : gmap string string :=
  foldl (λ results result,
    if decide (filePath result ≠ "")
    then <[version result := filePath result]> results
    else results) ∅ received.

(** One iteration of the loop [for i := 0; i < len(versions)-1; i++], for
    [vBase = versions[i]] and [vTarget = versions[i+1]]. *)
Definition comparePair (keysOnly : bool) (tcIdx : nat)
    (results : gmap string string) (vBase vTarget : string) : VersionDiff :=
  match results !! vBase, results !! vTarget with
  | Some file1, Some file2 =>
    match compareFiles tcIdx file1 file2 vBase vTarget keysOnly with
    | Err err =>
      {| VersionA := vBase; VersionB := vTarget; DiffResult := None;
         OldContent := ""; NewContent := ""; VersionDiff_Error := err |}
    | Ok (diff, old, new) =>
      {| VersionA := vBase; VersionB := vTarget; DiffResult := Some diff;
         OldContent := old; NewContent := new; VersionDiff_Error := "" |}
    end
  | r1, r2 =>
    let missing : list string :=
      app (match r1 with None => [vBase] | Some _ => [] end)
          (match r2 with None => [vTarget] | Some _ => [] end) in
    {| VersionA := vBase; VersionB := vTarget; DiffResult := None;
       OldContent := ""; NewContent := "";
       VersionDiff_Error :=
         "failed to get responses for version(s): " +:+ joinStrings missing ", " |}
  end.

(** The body of the loop over the test cases, after the cancellation poll. *)
Definition runTestCase (s : Schedule) (cfg : config.Config)
    (versions : list string) (timeout : Z) (tcIdx : nat)
    (testCase : config.TestCase) : CommandResult :=
  let received := receive s tcIdx (launch cfg versions timeout tcIdx testCase) in
  let results := collect received in
  let diffs :=
    if decide (1 < length versions)
    then (λ i, comparePair (config.KeysOnly cfg) tcIdx results
                 (versions !!! i) (versions !!! (i + 1)))
           <$> seq 0 (length versions - 1)
    else [] in
  {| TestCaseName := config.TestCase_Name testCase;
     CommandResult_Commands := config.TestCase_Commands testCase;
     CommandResult_Command := "";
     Diffs := diffs;
     CommandResult_ExecInfo := sort_ExecInfo (execInfo <$> received) |}.

(** The loop over the test cases, from index [tcIdx] on. *)
Fixpoint scenarios (s : Schedule) (cfg : config.Config)
    (versions : list string) (timeout : Z) (tcIdx : nat)
    (testCases : list config.TestCase) (runResult : RunResult)
    : RunResult * option ctxError :=
  match testCases with
  | [] => (runResult, None)
  | testCase :: rest =>
    match ctxDone tcIdx with
    | Some e =>
      ({| CommandResults := CommandResults runResult;
          Errors := Errors runResult ++
                    ["operation cancelled: " +:+ ctxError_Error e] |},
       Some e)
    | None =>
      let cmdRes := runTestCase s cfg versions timeout tcIdx testCase in
      scenarios s cfg versions timeout (S tcIdx) rest
        {| CommandResults := <[tcIdx := cmdRes]> (CommandResults runResult);
           Errors := Errors runResult |}
    end
  end.

(** The version labels of a run: the keys of [cfg.Versions] in the order
    [range] visits them, then [sort.Strings]. *)
Definition sortedVersions (s : Schedule) (cfg : config.Config) : list string :=
  sort_Strings (rangeVersions s (elements (dom (config.Versions cfg)))).

Definition RunWithContext (s : Schedule) (cfg : config.Config)
    : RunResult * option ctxError :=
  let versions := sortedVersions s cfg in
  let testCases := config.GetTestCases cfg in
  let runResult :=
    {| CommandResults := replicate (length testCases) zeroCommandResult;
       Errors := [] |} in
  let timeout := config.GetTimeout cfg in
  scenarios s cfg versions timeout 0 testCases runResult.

End functions.

End core.

(** ** Test doubles

    Small executable stand-ins for the library functions and for the
    outside world, used to run the model on concrete inputs. *)

Module fixtures.

Import comparator executor core.

(** The double quote character. *)
Definition dq : string := String "034"%char "".

(** Decimal text of a float that holds an integer. *)
Definition formatInteger (f : float64) : Result string :=
  match Prim2SF f with
  | S754_zero s => Ok (if s then "-0" else "0")
  | S754_finite s m e =>
    let sign := if s then "-" else "" in
    if decide (0 ≤ e)%Z then Ok (sign +:+ pretty (Z.pos m * 2 ^ e)%Z)
    else if decide (Z.pos m `mod` 2 ^ (- e) = 0)%Z
    then Ok (sign +:+ pretty (Z.pos m `div` 2 ^ (- e))%Z)
    else Err "fixture: not an integer"
  | _ => Err "json: unsupported value"
  end.

Definition sortFields (fields : list (string * string)) : list (string * string) :=
  merge_sort (λ a b, String.le a.1 b.1) fields.

(** Compact serialization with sorted object keys; strings are written
    without escapes. *)
Fixpoint marshal (v : JSON) : option string :=
  match v with
  | JNull => Some "null"
  | JBool b => Some (if b then "true" else "false")
  | JNumber f => match formatInteger f with Ok s => Some s | Err _ => None end
  | JString s => Some (dq +:+ s +:+ dq)
  | JArray l =>
    items ← foldr (λ x acc, s ← marshal x; rest ← acc; Some (s :: rest)) (Some []) l;
    Some ("[" +:+ Join items "," +:+ "]")
  | JObject m =>
    fields ← map_fold (λ k x acc, s ← marshal x; rest ← acc; Some ((k, s) :: rest))
                      (Some []) m;
    Some ("{" +:+ Join ((λ kv, dq +:+ kv.1 +:+ dq +:+ ":" +:+ kv.2)
                          <$> sortFields fields) "," +:+ "}")
  end.

Definition marshalResult (v : JSON) : Result string :=
  match marshal v with
  | Some s => Ok s
  | None => Err "json: unsupported value"
  end.

(** A decoder that knows the documents of a table and rejects every other
    input. *)
Definition tableCodec (docs : list (string * JSON)) : JSONCodec :=
  {| Unmarshal data :=
       match (list_to_map docs : gmap string JSON) !! data with
       | Some v => Ok v
       | None => Err "invalid character looking for beginning of value"
       end;
     Marshal := marshalResult;
     MarshalIndent v _ _ := marshalResult v;
     FormatV v := default "" (marshal v) |}.

(** [strings.SplitAfter(s, "\n")] with a line feed added to the last piece. *)
Fixpoint splitLines (cur s : string) : list string :=
  match s with
  | "" => [String.rev cur +:+ LF]
  | String c rest =>
    if decide (c = "010"%char)
    then String.rev (String c cur) :: splitLines "" rest
    else splitLines (String c cur) rest
  end.

(** A diff that replaces the whole left text by the whole right text, and
    never fails. *)
Definition wholeDiff : DiffLib :=
  {| SplitLines := splitLines "";
     GetUnifiedDiffString d :=
       (if decide (A d = B d) then ""
        else "--- " +:+ FromFile d +:+ LF +:+ "+++ " +:+ ToFile d +:+ LF +:+
             Join ((λ l, "-" +:+ l) <$> A d) "" +:+
             Join ((λ l, "+" +:+ l) <$> B d) "",
        None) |}.

(** A patch that replaces the root when the two serializations differ. *)
Definition rootPatch : PatchLib :=
  {| jsondiff_Compare v1 v2 :=
       Ok (if decide (marshal v1 = marshal v2) then []
           else [ {| Type_ := OpReplace; Path := ""; Value := Some v2 |} ]);
     MarshalIndentPatch p _ _ :=
       Ok (if decide (length p = 0) then "[]" else "[ replace the root ]") |}.

Fixpoint replaceAll (fuel : nat) (s old new : string) : string :=
  match fuel, s with
  | S fuel, String c rest =>
    if decide (old ≠ "" ∧ String.prefix old s = true)
    then new +:+ replaceAll fuel (String.substring (String.length old)
                                   (String.length s - String.length old) s) old new
    else String c (replaceAll fuel rest old new)
  | _, _ => s
  end.

(** A system whose commands are split at white space and whose processes
    end as [outcome] says, for the call and the version label they are run
    for. *)
Definition scriptedSys (outcome : nat → string → ProcessRun) : Sys :=
  {| ReplaceAll s old new := replaceAll (String.length s) s old new;
     ReplaceAllSpaceRuns s r := Join (String.words s) r;
     TrimSpace s := Join (String.words s) " ";
     shellwords_Parse s := Ok (String.words s);
     DurationString d := pretty (d `div` config.Second)%Z +:+ "s";
     RunCommand call version _ _ _ := outcome call version |}.

(** A store that files the response of version [v] under
    [responses/v<v>.json], a file system holding [files], and a context
    whose state at each poll is [done]. *)
Definition scriptedEnv (files : gmap string string)
    (done : nat → option ctxError) : Env :=
  {| SaveResponse _ _ version _ _ := Ok ("responses/v" +:+ version +:+ ".json");
     ReadFile _ name :=
       match files !! name with
       | Some content => Ok content
       | None => Err ("open " +:+ name +:+ ": no such file or directory")
       end;
     ctxDone := done |}.

Definition succeeds (out : string) : ProcessRun :=
  {| stdout := out; stderr := ""; runErr := None; ctxErr := None |}.

Definition fails (msg : string) : ProcessRun :=
  {| stdout := ""; stderr := ""; runErr := Some msg; ctxErr := None |}.

Definition overruns : ProcessRun :=
  {| stdout := ""; stderr := ""; runErr := Some "signal: killed";
     ctxErr := Some DeadlineExceeded |}.

(** Example documents and their texts. *)
Definition array_1_2_3 : JSON := JArray [JNumber 1; JNumber 2; JNumber 3].
Definition array_1_9_3 : JSON := JArray [JNumber 1; JNumber 9; JNumber 3].
Definition object_a1 : JSON := JObject {[ "a" := JNumber 1 ]}.
Definition object_a1_b2 : JSON :=
  JObject (<[ "a" := JNumber 1 ]> {[ "b" := JNumber 2 ]}).
Definition object_a99_b2 : JSON :=
  JObject (<[ "a" := JNumber 99 ]> {[ "b" := JNumber 2 ]}).

Definition text_a1 : string := "{" +:+ dq +:+ "a" +:+ dq +:+ ":1}".
Definition text_a1_b2 : string :=
  "{" +:+ dq +:+ "a" +:+ dq +:+ ":1," +:+ dq +:+ "b" +:+ dq +:+ ":2}".
Definition text_a99_b2 : string :=
  "{" +:+ dq +:+ "a" +:+ dq +:+ ":99," +:+ dq +:+ "b" +:+ dq +:+ ":2}".

Definition exampleCodec : JSONCodec :=
  tableCodec [
    ("[1,2,3]", array_1_2_3); ("[1,9,3]", array_1_9_3);
    (text_a1, object_a1); (text_a1_b2, object_a1_b2);
    (text_a99_b2, object_a99_b2) ].

(** Schedules: the order of the source, and its reverse. *)
Definition inOrder : Schedule :=
  {| rangeVersions keys := keys; receive _ sent := sent |}.

Definition reversed : Schedule :=
  {| rangeVersions keys := reverse keys; receive _ sent := reverse sent |}.

(** A run over three versions of which the middle one fails: one
    scenario given in the legacy form, never cancelled. *)
Definition threeVersions : config.Config :=
  {| config.Versions :=
       <[ "a" := "http://a.test" ]> (<[ "b" := "http://b.test" ]>
         {[ "c" := "http://c.test" ]});
     config.Commands := ["curl {{BASE_URL}}/users/1"];
     config.TestCases := [];
     config.KeysOnly := false;
     config.Timeout := 0 |}.

Definition middleFails : Sys :=
  scriptedSys (λ _ v, if decide (v = "b") then fails "exit status 7"
                      else succeeds text_a1).

Definition middleOverruns : Sys :=
  scriptedSys (λ _ v, if decide (v = "b") then overruns else succeeds text_a1).

Definition twoFiles : Env :=
  scriptedEnv (<[ "responses/va.json" := text_a1 ]>
                 {[ "responses/vc.json" := text_a1_b2 ]})
              (λ _, None).

(** A run over two versions that both succeed, the first with an empty
    response. *)
Definition twoVersions : config.Config :=
  {| config.Versions := <[ "a" := "http://a.test" ]> {[ "c" := "http://c.test" ]};
     config.Commands := ["curl {{BASE_URL}}/users/1"];
     config.TestCases := [];
     config.KeysOnly := false;
     config.Timeout := 0 |}.

Definition allSucceed : Sys := scriptedSys (λ _ _, succeeds text_a1).


(** A run of two scenarios whose context is found done before the second
    one. *)
Definition twoScenarios : config.Config :=
  {| config.Versions := <[ "a" := "http://a.test" ]> {[ "c" := "http://c.test" ]};
     config.Commands := ["curl {{BASE_URL}}/users/1"; "curl {{BASE_URL}}/users/2"];
     config.TestCases := [];
     config.KeysOnly := false;
     config.Timeout := 0 |}.

Definition cancelledAfterFirst : Env :=
  scriptedEnv (<[ "responses/va.json" := text_a1 ]>
                 {[ "responses/vc.json" := text_a1_b2 ]})
              (λ i, if decide (i = 0) then None else Some Canceled).

End fixtures.

(** ** The reports as the specification words them

    Definitions that follow the specification's sentences rather than the
    code; the properties below relate the code to them. *)

Module spec.

Import comparator core.

(** The number of nodes of a document. *)
Fixpoint JSON_size (v : JSON) : nat :=
  match v with
  | JArray l => S (foldr (λ x n, JSON_size x + n) 0 l)
  | JObject m => S (map_fold (λ _ x n, JSON_size x + n) 0 m)
  | _ => 1
  end.

(** The path of field [k] under the path [prefix]. *)
Definition fieldPath (prefix k : string) : string :=
  if decide (prefix = "") then k else prefix +:+ "." +:+ k.

(** [KeyPath v prefix p]: [p] is a key path reachable in [v], written under
    [prefix].  Every field of an object is reachable, and so is what is
    reachable below it; an array contributes the single segment [[]],
    which stands for its first element. *)
Inductive KeyPath : JSON → string → string → Prop :=
  | KeyPath_field m prefix k child :
      m !! k = Some child →
      KeyPath (JObject m) prefix (fieldPath prefix k)
  | KeyPath_below m prefix k child p :
      m !! k = Some child →
      KeyPath child (fieldPath prefix k) p →
      KeyPath (JObject m) prefix p
  | KeyPath_first first rest prefix p :
      KeyPath first (prefix +:+ "[]") p →
      KeyPath (JArray (first :: rest)) prefix p.

(** The messages of a keys-only summary, for the path sets of the two
    sides. *)
Definition keyReport (left right : gset string) : list string :=
  ((λ p, "Key '" +:+ p +:+ "' removed") <$> elements (left ∖ right)) ++
  ((λ p, "Key '" +:+ p +:+ "' added") <$> elements (right ∖ left)).

Section fields.
Context `{codec : !JSONCodec}.

(** The top-level fields present on both sides whose values are not equal
    under re-serialization. *)
Definition changedFields (m1 m2 : gmap string JSON) : list string :=
  filter (λ k, deepEqual (m1 !!! k) (m2 !!! k) = false)
         (elements (dom m1 ∩ dom m2)).

(** The messages of a full-mode summary of two objects. *)
Definition fieldReport (m1 m2 : gmap string JSON) : list string :=
  ((λ k, "Field '" +:+ k +:+ "' removed") <$> elements (dom m1 ∖ dom m2)) ++
  ((λ k, "Field '" +:+ k +:+ "' changed") <$> changedFields m1 m2) ++
  ((λ k, "Field '" +:+ k +:+ "' added") <$> elements (dom m2 ∖ dom m1)).

(** The positions of two arrays whose elements are not equal under
    re-serialization. *)
Definition changedPositions (arr1 arr2 : list JSON) : list nat :=
  filter (λ i, deepEqual (arr1 !!! i) (arr2 !!! i) = false)
         (seq 0 (length arr1)).

End fields.

(** The command of a task was started and, once it had returned, its own
    timeout context reported that its deadline had passed. *)
Definition deadlineOverrun `{sys : !executor.Sys} (call : nat)
    (cmdRaw v url : string) (timeout : Z) : Prop :=
  ∃ cmdName cmdArgs,
    executor.shellwords_Parse
      (executor.ReplaceAll (executor.normalizeCommand cmdRaw) "{{BASE_URL}}" url)
      = Ok (cmdName :: cmdArgs) ∧
    executor.ctxErr
      (executor.RunCommand call v cmdName cmdArgs
         (if decide (timeout ≤ 0)%Z then executor.DefaultTimeout else timeout))
      = Some executor.DeadlineExceeded.

(** The number of scenarios, among [remaining] ones starting at index
    [tcIdx], that are started before the context is found done. *)
Fixpoint completed `{env : !Env} (tcIdx remaining : nat) : nat :=
  match remaining with
  | 0 => 0
  | S remaining =>
    match ctxDone tcIdx with
    | Some _ => 0
    | None => S (completed (S tcIdx) remaining)
    end
  end.

(** The adjacent pairs of a list of labels. *)
Fixpoint adjacentPairs (labels : list string) : list (string * string) :=
  match labels with
  | a :: (b :: _) as rest => (a, b) :: adjacentPairs rest
  | _ => []
  end.




End spec.

(** ** Package executor, continued *)

Module executor_defaults.

Import executor.

Section functions.
Context `{sys : !Sys}.

Definition ExecuteWithDefaults (call : nat) (commandTmpl version baseURL : string)
    : ExecutionResult * option error :=
  Execute call commandTmpl version baseURL DefaultTimeout.

End functions.

End executor_defaults.

(** ** Package config, continued: validation and loading *)

Module config_validation.

Import config.

Record ValidationError := {
  Field : string;
  Message : string
}.

Definition ValidationError_Error (e : ValidationError) : string :=
  Field e +:+ ": " +:+ Message e.

Record ValidationResult := {
  Errors : list ValidationError;
  Warnings : list string
}.

Definition IsValid (v : ValidationResult) : bool :=
  bool_decide (length (Errors v) = 0).

Definition ValidationResult_Error (v : ValidationResult) : string :=
  if decide (length (Errors v) = 0) then ""
  else Join (ValidationError_Error <$> Errors v) "; ".

(** The fields of [url.URL] that [Validate] reads. *)
Record URL := {
  Scheme : string;
  Host : string
}.

(** strings, net/url, encoding/json and os.  [rangeEntries] is the order in
    which [range] visits the entries of a map of strings, a permutation of
    them (see [fairRange]); [decodeConfig] is [json.Unmarshal] into a
    [Config]. *)
Class Lib := {
  TrimSpace : string → string;
  Contains : string → string → bool;
  url_Parse : string → Result URL;
  rangeEntries : list (string * string) → list (string * string);
  decodeConfig : string → Result Config;
  ReadFile : string → Result string
}.

Definition fairRange `{lib : !Lib} : Prop :=
  ∀ entries, rangeEntries entries ≡ₚ entries.

Section functions.
Context `{lib : !Lib}.

(** The body of the loop over [c.Versions]: the errors of one entry. *)
Definition versionErrors (entry : string * string) : list ValidationError :=
  let '(name, baseURL) := entry in
  if decide (TrimSpace name = "")
  then [ {| Field := "versions"; Message := "version name cannot be empty" |} ]
  else if decide (TrimSpace baseURL = "")
  then [ {| Field := "versions[" +:+ name +:+ "]";
            Message := "URL cannot be empty" |} ]
  else
    match url_Parse baseURL with
    | Err err =>
      [ {| Field := "versions[" +:+ name +:+ "]";
           Message := "invalid URL: " +:+ err |} ]
    | Ok parsedURL =>
      (if decide (Scheme parsedURL = "")
       then [ {| Field := "versions[" +:+ name +:+ "]";
                 Message := "URL must have a scheme (http:// or https://)" |} ]
       else []) ++
      (if decide (Host parsedURL = "")
       then [ {| Field := "versions[" +:+ name +:+ "]";
                 Message := "URL must have a host" |} ]
       else [])
    end.

(** The body of the loop over [c.TestCases]: the errors and the warnings of
    test case [i]. *)
Definition testCaseResult (i : nat) (tc : TestCase)
    : list ValidationError * list string :=
  let nameErrors :=
    if decide (TrimSpace (TestCase_Name tc) = "")
    then [ {| Field := "test_cases[" +:+ Itoa i +:+ "].name";
              Message := "test case name cannot be empty" |} ]
    else [] in
  if decide (size (TestCase_Commands tc) = 0)
  then (nameErrors ++
        [ {| Field := "test_cases[" +:+ Itoa i +:+ "].commands";
             Message := "test case must have at least one command" |} ],
        [])
  else
    let entries := rangeEntries (map_to_list (TestCase_Commands tc)) in
    let commandErrors :=
      entries ≫= λ entry,
        if decide (TrimSpace entry.2 = "")
        then [ {| Field := "test_cases[" +:+ Itoa i +:+ "].commands[" +:+
                           entry.1 +:+ "]";
                  Message := "command cannot be empty" |} ]
        else [] in
    let hasPlaceholder := existsb (λ entry, Contains entry.2 "{{BASE_URL}}") entries in
    (nameErrors ++ commandErrors,
     if hasPlaceholder then []
     else ["test_cases[" +:+ Itoa i +:+
           "]: no commands contain {{BASE_URL}} placeholder"]).

(** The loop over the legacy [c.Commands]. *)
Definition legacyResult (commands : list string)
    : list ValidationError * list string :=
  let errors :=
    mjoin (imap (λ i cmd,
      if decide (TrimSpace cmd = "")
      then [ {| Field := "commands[" +:+ Itoa i +:+ "]";
                Message := "command cannot be empty" |} ]
      else []) commands) in
  let hasPlaceholder :=
    existsb (λ cmd, bool_decide (TrimSpace cmd ≠ "") && Contains cmd "{{BASE_URL}}")
            commands in
  (errors,
   if negb hasPlaceholder && bool_decide (0 < length commands)
   then ["no commands contain {{BASE_URL}} placeholder - commands will not use version URLs"]
   else []).

Definition Validate (c : Config) : ValidationResult :=
  let versionPart :=
    if decide (size (Versions c) = 0)
    then [ {| Field := "versions"; Message := "at least one version is required" |} ]
    else rangeEntries (map_to_list (Versions c)) ≫= versionErrors in
  let casePart :=
    if decide (0 < length (TestCases c))
    then
      let results := imap testCaseResult (TestCases c) in
      (mjoin (fst <$> results), mjoin (snd <$> results))
    else if decide (length (Commands c) = 0)
    then ([ {| Field := "test_cases/commands";
               Message := "at least one test case or command is required" |} ], [])
    else legacyResult (Commands c) in
  let timeoutPart :=
    if decide (Timeout c < 0)%Z
    then [ {| Field := "timeout"; Message := "timeout cannot be negative" |} ]
    else [] in
  {| Errors := versionPart ++ casePart.1 ++ timeoutPart;
     Warnings := casePart.2 |}.

(** [LoadFromJSON]. *)
Definition LoadFromJSON (data : string) : Result Config :=
  match decodeConfig data with
  | Err err => Err ("failed to parse config JSON: " +:+ err)
  | Ok cfg =>
    let validation := Validate cfg in
    if IsValid validation then Ok cfg
    else Err ("config validation failed: " +:+ ValidationResult_Error validation)
  end.

(** [Load]; the warnings it prints are left out. *)
Definition Load (path : string) : Result Config :=
  match ReadFile path with
  | Err err => Err ("failed to read config file: " +:+ err)
  | Ok data =>
    match decodeConfig data with
    | Err err => Err ("failed to parse config JSON: " +:+ err)
    | Ok cfg =>
      let validation := Validate cfg in
      if IsValid validation then Ok cfg
      else Err ("config validation failed: " +:+ ValidationResult_Error validation)
    end
  end.

End functions.

End config_validation.

(** ** Package storage *)

Module storage.

(** A reading of the clock. *)
Definition Time := Z.

Record ExecutionRecord := {
  Version : string;
  Timestamp : Time;
  ResponseFile : string;
  Status : string;
  Error : string
}.

Record CommandEntry := {
  CommandHash : string;
  CommandRaw : string;
  Executions : list ExecutionRecord
}.

Record Index := { Commands : list CommandEntry }.

Record Store := {
  BaseDir : string;
  Store_Index : Index
}.

Definition underscore : ascii := "_"%char.

(** The class of the first expression of [sanitizeFilename]: the
    characters < > : / \ | ? *, the double quote, and the control characters
    0x00 to 0x1f.  The expressions match single-byte runes only, so the
    bytes of any other rune are copied as they are. *)
Definition problematic (c : ascii) : bool :=
  bool_decide (c ∈ ["<"; ">"; ":"; "034"; "/"; "\"; "|"; "?"; "*"]%char)
  || (N_of_ascii c <=? 31)%N.

(** The class [\s]: tab, line feed, form feed, carriage return and space. *)
Definition whitespace (c : ascii) : bool :=
  bool_decide (c ∈ ["009"; "010"; "012"; "013"; " "]%char).

Definition isUnderscore (c : ascii) : bool := bool_decide (c = underscore).

(** [regexp.MustCompile(class+).ReplaceAllString(s, "_")]: every maximal run
    of bytes of the class becomes one underscore.  [inRun] tells that the
    byte before [s] belongs to a run already replaced. *)
Fixpoint replaceRuns (class : ascii → bool) (inRun : bool) (s : list ascii)
    : list ascii :=
  match s with
  | [] => []
  | c :: rest =>
    if class c
    then if inRun then replaceRuns class true rest
         else underscore :: replaceRuns class true rest
    else c :: replaceRuns class false rest
  end.

(** The two alternatives of [^_+|_+$], replaced by the empty string. *)
Fixpoint trimLeading (s : list ascii) : list ascii :=
  match s with
  | c :: rest => if isUnderscore c then trimLeading rest else s
  | [] => []
  end.

Fixpoint trimTrailing (s : list ascii) : list ascii :=
  match s with
  | [] => []
  | c :: rest =>
    match trimTrailing rest with
    | [] => if isUnderscore c then [] else [c]
    | kept => c :: kept
    end
  end.

(** [sanitizeFilename] on the bytes of the name. *)
Definition sanitizeBytes (name : list ascii) : list ascii :=
  let sanitized := (λ c, if problematic c then underscore else c) <$> name in
  let sanitized := replaceRuns whitespace false sanitized in
  let sanitized := replaceRuns isUnderscore false sanitized in
  let sanitized := trimTrailing (trimLeading sanitized) in
  let sanitized :=
    match sanitized with
    | [] => String.list_ascii_of_string "unnamed"
    | _ => sanitized
    end in
  if decide (50 < length sanitized) then take 50 sanitized else sanitized.

Definition sanitizeFilename (name : string) : string :=
  String.string_of_list_ascii (sanitizeBytes (String.list_ascii_of_string name)).

(** The search loop of [updateIndex]: the record is appended to the first
    entry with the hash; [None] when there is none ([found] stays false). *)
Fixpoint appendExecution (commands : list CommandEntry) (hash : string)
    (record : ExecutionRecord) : option (list CommandEntry) :=
  match commands with
  | [] => None
  | entry :: rest =>
    if decide (CommandHash entry = hash)
    then Some ({| CommandHash := CommandHash entry;
                  CommandRaw := CommandRaw entry;
                  Executions := Executions entry ++ [record] |} :: rest)
    else cons entry <$> appendExecution rest hash record
  end.

Definition updateIndex (index : Index) (command hash : string)
    (record : ExecutionRecord) : Index :=
  match appendExecution (Commands index) hash record with
  | Some commands => {| Commands := commands |}
  | None =>
    {| Commands := Commands index ++
         [ {| CommandHash := hash; CommandRaw := command;
              Executions := [record] |} ] |}
  end.

(** crypto/sha256 with encoding/hex, time, path/filepath, os and
    encoding/json.  [hash] is the hexadecimal SHA-256 digest (64
    characters); [Format] is [Time.Format] with the layout
    [20060102T150405].  The first argument of [Now], [MkdirAll] and
    [WriteFile] identifies the call of [SaveResponse] during which they are
    called, as the clock and the file system may answer differently from one
    call to the next. *)
Class OS := {
  hash : string → string;
  Now : nat → Time;
  Format : Time → string;
  filepath_Join : string → string → string;
  MkdirAll : nat → string → option error;
  WriteFile : nat → string → string → option error;
  json_Indent : string → Result string;
  MarshalIndentIndex : Index → Result string
}.

Section functions.
Context `{os : !OS}.

(** [saveIndexLocked]: its error, and the file it wrote, if any. *)
Definition saveIndexLocked (call : nat) (s : Store)
    : option error * list (string * string) :=
  match MarshalIndentIndex (Store_Index s) with
  | Err err => (Some ("failed to marshal index: " +:+ err), [])
  | Ok data =>
    let indexPath := filepath_Join (BaseDir s) "index.json" in
    match WriteFile call indexPath data with
    | Some err => (Some ("failed to write index: " +:+ err), [])
    | None => (None, [(indexPath, data)])
    end
  end.

(** [SaveResponse]: its results, the store it leaves, and the files it
    wrote (path and content, in order).  The response is [None] for a nil
    slice. *)
Definition SaveResponse (call : nat) (s : Store) (command version : string)
    (response : option string) (execErr : option error)
    : Result string * Store * list (string * string) :=
  let cmdHash := hash command in
  let timestamp := Now call in
  let tsStr := Format timestamp in
  let safeVer := sanitizeFilename version in
  let filename :=
    "v" +:+ safeVer +:+ "_" +:+ String.substring 0 8 cmdHash +:+ "_" +:+ tsStr
        +:+ ".json" in
  let filePath := filepath_Join (BaseDir s) filename in
  match MkdirAll call (BaseDir s) with
  | Some err => (Err ("failed to create storage directory: " +:+ err), s, [])
  | None =>
    let finish (execRecord : ExecutionRecord) (written : list (string * string)) :=
      let s := {| BaseDir := BaseDir s;
                  Store_Index := updateIndex (Store_Index s) command cmdHash execRecord |} in
      (Ok filePath, s, written ++ (saveIndexLocked call s).2) in
    match execErr, response with
    | Some execErr, _ =>
      finish {| Version := version; Timestamp := timestamp; ResponseFile := "";
                Status := "error"; Error := execErr |} []
    | None, Some response =>
      let content :=
        match json_Indent response with
        | Ok prettyJSON => prettyJSON
        | Err _ => response
        end in
      match WriteFile call filePath content with
      | Some writeErr =>
        (Err ("failed to write response file: " +:+ writeErr), s, [])
      | None =>
        finish {| Version := version; Timestamp := timestamp;
                  ResponseFile := filename; Status := "success"; Error := "" |}
               [(filePath, content)]
      end
    | None, None =>
      finish {| Version := version; Timestamp := timestamp; ResponseFile := "";
                Status := "success"; Error := "" |} []
    end
  end.

(** [GetResponsePath]. *)
Definition GetResponsePath (s : Store) (filename : string) : string :=
  filepath_Join (BaseDir s) filename.

End functions.

End storage.

(** ** Package server *)

Module server.

Import config.

Definition Minute : Z := 60 * Second.
Definition WriteTimeout : Z := 5 * Minute.

(** The deadline [handleRun] gives a run.  [int] and [time.Duration] are
    64 bits wide; both products wrap around. *)
Definition estimatedTime (cfg : Config) : Z :=
  let estimatedTime :=
    wrap64 (wrap64 (Z.of_nat (length (Commands cfg)) * Z.of_nat (size (Versions cfg)))
            * GetTimeout cfg) in
  let estimatedTime :=
    if decide (estimatedTime < Minute)%Z then Minute else estimatedTime in
  if decide (estimatedTime > WriteTimeout)%Z then (WriteTimeout - Second)%Z
  else estimatedTime.

End server.

(** ** Package main *)

Module cli.

Import core.

(** The body of the inner loop of [printResults]: the text it prints for one
    entry, or [None] when it dereferences a nil [DiffResult]. *)
Definition printDiff (diff : VersionDiff) : option string :=
  let header :=
    LF +:+ "=== Diff between " +:+ VersionA diff +:+ " and " +:+ VersionB diff
       +:+ " ===" +:+ LF in
  if decide (VersionDiff_Error diff ≠ "")
  then Some (header +:+ "Error: " +:+ VersionDiff_Error diff +:+ LF)
  else
    match DiffResult diff with
    | None => None
    | Some r =>
      if decide (comparator.Summary r ≠ "No top-level changes")
      then Some (header +:+ comparator.TextDiff r +:+ LF +:+
                 "Summary: " +:+ comparator.Summary r +:+ LF)
      else Some (header +:+ "No significant differences." +:+ LF)
    end.

(** [printResults]: everything it prints, or [None] when it panics. *)
Definition printResults (result : RunResult) : option string :=
  foldl (λ out cmdRes,
    foldl (λ out diff,
      printed ← out; text ← printDiff diff; Some (printed +:+ text))
      out (Diffs cmdRes))
    (Some "") (CommandResults result).

End cli.

(** ** More test doubles *)

Module doubles.

Import config config_validation.

(** [strings.Contains] by search at every position. *)
Fixpoint contains (s substr : string) : bool :=
  String.prefix substr s ||
  match s with
  | "" => false
  | String _ rest => contains rest substr
  end.

(** A URL of the form [scheme://host] is split at the first colon; any
    other text has neither scheme nor host. *)
Fixpoint splitURL (scheme s : string) : URL :=
  match s with
  | String ":" (String "/" (String "/" host)) =>
    {| Scheme := String.rev scheme; Host := host |}
  | String c rest => splitURL (String c scheme) rest
  | "" => {| Scheme := ""; Host := "" |}
  end.

(** White space is trimmed as by [String.words]; maps are visited in the
    order of their listing; the decoder knows the configurations of a table,
    and the file system the files of another. *)
Definition tableLib (configs : list (string * Config))
    (files : list (string * string)) : Lib :=
  {| TrimSpace s := Join (String.words s) " ";
     Contains := contains;
     url_Parse s := Ok (splitURL "" s);
     rangeEntries entries := entries;
     decodeConfig data :=
       match (list_to_map configs : gmap string Config) !! data with
       | Some cfg => Ok cfg
       | None => Err "unexpected end of JSON input"
       end;
     ReadFile path :=
       match (list_to_map files : gmap string string) !! path with
       | Some data => Ok data
       | None => Err ("open " +:+ path +:+ ": no such file or directory")
       end |}.

(** A matrix configuration of one scenario over two versions, with legacy
    commands beside it. *)
Definition matrix : Config :=
  {| Versions := <[ "v1" := "http://localhost:9876" ]>
                   {[ "v2" := "http://localhost:9090" ]};
     Commands := ["curl {{BASE_URL}}/ignored"];
     TestCases :=
       [ {| TestCase_Name := "users";
            TestCase_Commands :=
              <[ "v1" := "curl {{BASE_URL}}/users" ]>
                {[ "v2" := "curl {{BASE_URL}}/customers" ]} |} ];
     KeysOnly := false;
     Timeout := 5 |}.

Definition exampleLib : Lib :=
  tableLib [("matrix", matrix)] [("config.json", "matrix")].

(** A matrix configuration whose only scenario has no command for the
    second of its two versions. *)
Definition partialMatrix : Config :=
  {| Versions := <[ "a" := "http://a.test" ]> {[ "c" := "http://c.test" ]};
     Commands := [];
     TestCases :=
       [ {| TestCase_Name := "users";
            TestCase_Commands := {[ "a" := "curl {{BASE_URL}}/users/1" ]} |} ];
     KeysOnly := false;
     Timeout := 0 |}.

(** An index with one entry. *)
Definition oneEntry : storage.Index :=
  {| storage.Commands :=
       [ {| storage.CommandHash := "9f2c"; storage.CommandRaw := "curl a";
            storage.Executions := [] |} ] |}.

Definition failedRun : storage.ExecutionRecord :=
  {| storage.Version := "v1"; storage.Timestamp := 0%Z;
     storage.ResponseFile := ""; storage.Status := "error";
     storage.Error := "exit status 7" |}.

(** An operating system whose digest of a command is the command followed
    by zeros, whose clock stands still, and whose writes fail as [failing]
    says. *)
Definition scriptedOS (failing : string → bool) : storage.OS :=
  {| storage.hash command := command +:+ "00000000";
     storage.Now _ := 0%Z;
     storage.Format _ := "19700101T000000";
     storage.filepath_Join dir name := dir +:+ "/" +:+ name;
     storage.MkdirAll _ _ := None;
     storage.WriteFile _ path _ :=
       if failing path then Some "no space left on device" else None;
     storage.json_Indent data := Err "invalid character";
     storage.MarshalIndentIndex _ := Ok "{}" |}.

Definition emptyStore : storage.Store :=
  {| storage.BaseDir := "responses";
     storage.Store_Index := {| storage.Commands := [] |} |}.

End doubles.

(** ** Invariants

    Predicates the properties below are stated with. *)

Module invariants.

Import comparator.

(** The documents [extractKeys] produces: type markers at the leaves, and
    arrays of at most one element. *)
Inductive Skeleton : JSON → Prop :=
  | Skeleton_marker s :
      s ∈ ["<string>"; "<number>"; "<boolean>"; "<null>"] →
      Skeleton (JString s)
  | Skeleton_empty : Skeleton (JArray [])
  | Skeleton_first first :
      Skeleton first → Skeleton (JArray [first])
  | Skeleton_object m :
      (∀ k child, m !! k = Some child → Skeleton child) →
      Skeleton (JObject m).

(** The values directly below the top of a document. *)
Definition children (v : JSON) : list JSON :=
  match v with
  | JArray l => l
  | JObject m => (map_to_list m).*2
  | _ => []
  end.

(** The executions an index records, over all its entries. *)
Definition executions (index : storage.Index) : list storage.ExecutionRecord :=
  storage.Commands index ≫= storage.Executions.

(** No two underscores side by side. *)
Definition singleUnderscores (s : list ascii) : Prop :=
  ∀ i, ¬ (s !! i = Some storage.underscore ∧ s !! S i = Some storage.underscore).

(** A byte that [sanitizeFilename] leaves alone. *)
Definition plain (c : ascii) : Prop :=
  storage.problematic c = false ∧ storage.whitespace c = false.

End invariants.

(** * Properties *)

(** Closing a goal about concrete inputs by evaluation. *)
Ltac evaluate := vm_compute; reflexivity.

(** ** Sorting *)

Section sorting.

Lemma sort_Strings_Sorted (l : list string) : Sorted String.le (sort_Strings l).
Proof. apply (Sorted_merge_sort String.le). Qed.

Lemma sort_Strings_Permutation (l : list string) : sort_Strings l ≡ₚ l.
Proof. apply merge_sort_Permutation. Qed.

(** Whatever order the elements are produced in, sorting gives one list. *)
Lemma sort_Strings_unique (l1 l2 : list string) :
  l1 ≡ₚ l2 → sort_Strings l1 = sort_Strings l2.
Proof.
  intros Hp. apply (Sorted_unique String.le); try apply sort_Strings_Sorted.
  by rewrite !sort_Strings_Permutation.
Qed.

(** Any sorting algorithm agrees with [sort_Strings]. *)
Lemma sort_Strings_spec (l sorted : list string) :
  sorted ≡ₚ l → Sorted String.le sorted → sorted = sort_Strings l.
Proof.
  intros Hp Hs. apply (Sorted_unique String.le); auto using sort_Strings_Sorted.
  by rewrite sort_Strings_Permutation.
Qed.

Lemma sort_Strings_nil_iff (l : list string) : sort_Strings l = [] ↔ l = [].
Proof.
  split; intros H.
  - apply Permutation_nil_r. rewrite <- H. symmetry. apply sort_Strings_Permutation.
  - by subst.
Qed.

Lemma sort_Strings_length (l : list string) : length (sort_Strings l) = length l.
Proof. apply Permutation_length, sort_Strings_Permutation. Qed.

Lemma sort_Strings_NoDup (l : list string) : NoDup l → NoDup (sort_Strings l).
Proof. intros H. by rewrite sort_Strings_Permutation. Qed.

(** Two lists with the same elements and the same sequence of pairwise
    distinct keys are equal. *)
Lemma keyed_list_eq {A K : Type} (key : A → K) (l1 l2 : list A) :
  NoDup (key <$> l1) → l1 ≡ₚ l2 → key <$> l1 = key <$> l2 → l1 = l2.
Proof.
  revert l2. induction l1 as [|x l1 IH]; intros [|y l2] Hnd Hp Hk;
    try discriminate; [done|].
  assert (key x = key y ∧ key <$> l1 = key <$> l2) as [Hxy Hk'].
  { rewrite !fmap_cons in Hk. split; congruence. }
  clear Hk. rename Hk' into Hk.
  rewrite fmap_cons in Hnd. apply NoDup_cons in Hnd as [Hx Hnd].
  assert (x = y) as ->.
  { assert (x ∈ y :: l2) as Hin by (rewrite <- Hp; left).
    apply elem_of_cons in Hin as [->|Hin]; [done|].
    exfalso. apply Hx. rewrite Hk. by apply list_elem_of_fmap_2. }
  f_equal. apply IH; [done| |done]. by apply (inj (cons y)).
Qed.


End sorting.

(** ** Decoded JSON documents *)

Section json.
Import comparator spec.

Lemma JSON_size_elem (l : list JSON) (x : JSON) :
  x ∈ l → JSON_size x < JSON_size (JArray l).
Proof.
  simpl. induction 1 as [x l|x y l _ IH]; simpl; lia.
Qed.

Lemma JSON_size_lookup (m : gmap string JSON) (k : string) (x : JSON) :
  m !! k = Some x → JSON_size x < JSON_size (JObject m).
Proof.
  intros Hk. rewrite <- (insert_delete_id m k x) by done. simpl.
  rewrite map_fold_insert_L; [lia| |by rewrite lookup_delete_eq].
  intros; lia.
Qed.

(** Structural induction on documents: the hypothesis is available for
    every element of an array and every field of an object. *)
Lemma JSON_ind (P : JSON → Prop) :
  P JNull →
  (∀ b, P (JBool b)) →
  (∀ f, P (JNumber f)) →
  (∀ s, P (JString s)) →
  (∀ l, Forall P l → P (JArray l)) →
  (∀ m, map_Forall (λ _, P) m → P (JObject m)) →
  ∀ v, P v.
Proof.
  intros Hnull Hbool Hnum Hstr Harr Hobj v.
  remember (JSON_size v) as n eqn:Hn. revert v Hn.
  induction (lt_wf n) as [n _ IH]; intros v ->.
  destruct v as [| | | |l|m]; auto.
  - apply Harr, Forall_forall. intros x Hx.
    eapply IH; [|done]. by apply JSON_size_elem.
  - apply Hobj. intros k x Hk.
    eapply IH; [|done]. by eapply JSON_size_lookup.
Qed.

End json.

(** ** Key paths *)

Section key_paths.
Import comparator spec.

(** Membership in a union folded over a map. *)
Lemma elem_of_map_fold_union {A : Type} (g : string → A → gset string)
    (m : gmap string A) (x : string) :
  x ∈ map_fold (λ k c acc, g k c ∪ acc) ∅ m ↔
  ∃ k c, m !! k = Some c ∧ x ∈ g k c.
Proof.
  revert x.
  apply (map_fold_weak_ind (λ r m, ∀ x, x ∈ r ↔ ∃ k c, m !! k = Some c ∧ x ∈ g k c)).
  - intros x. split; [set_solver|]. intros (k & c & Hk & _).
    by rewrite lookup_empty in Hk.
  - intros i c m' r Hi IH x. rewrite elem_of_union, IH. split.
    + intros [Hx|(k & c' & Hk & Hx)].
      * exists i, c. by rewrite lookup_insert_eq.
      * exists k, c'. split; [|done]. rewrite lookup_insert_ne; [done|].
        intros ->. congruence.
    + intros (k & c' & Hk & Hx). destruct (decide (i = k)) as [->|Hne].
      * rewrite lookup_insert_eq in Hk. left. congruence.
      * rewrite lookup_insert_ne in Hk by done. right. eauto.
Qed.

Lemma collectAllKeys_object (m : gmap string JSON) (prefix p : string) :
  p ∈ collectAllKeys (JObject m) prefix ↔
  ∃ k child, m !! k = Some child ∧
    (p = fieldPath prefix k ∨ p ∈ collectAllKeys child (fieldPath prefix k)).
Proof.
  change (collectAllKeys (JObject m) prefix) with
    (map_fold (λ k child keys,
       ({[ fieldPath prefix k ]} ∪ collectAllKeys child (fieldPath prefix k)) ∪ keys)
       ∅ m).
  rewrite (elem_of_map_fold_union
    (λ k child, {[ fieldPath prefix k ]} ∪ collectAllKeys child (fieldPath prefix k))).
  by setoid_rewrite elem_of_union; setoid_rewrite elem_of_singleton.
Qed.

(** [collectAllKeys] computes the reachable key paths. *)
Lemma collectAllKeys_KeyPath (v : JSON) :
  ∀ prefix p, p ∈ collectAllKeys v prefix ↔ KeyPath v prefix p.
Proof.
  induction v as [| b | f | s | l IH | m IH] using JSON_ind; intros prefix p;
    try (split; [set_solver | inversion 1]).
  - destruct l as [|first rest]; [split; [set_solver | inversion 1]|].
    apply Forall_cons in IH as [IH _]. simpl. rewrite IH. split.
    + by constructor.
    + by inversion 1.
  - rewrite collectAllKeys_object. split.
    + intros (k & child & Hk & [->|Hp]).
      * by eapply KeyPath_field.
      * eapply KeyPath_below; [done|]. by apply (IH k child Hk).
    + inversion 1 as [m' prefix' k child Hk|m' prefix' k child p' Hk Hp|]; subst.
      * exists k, child. auto.
      * exists k, child. split; [done|]. right. by apply (IH k child Hk).
Qed.

(** The skeleton of a document has the key paths of the document. *)
Lemma extractKeys_paths (v : JSON) :
  ∀ prefix, collectAllKeys (extractKeys v) prefix = collectAllKeys v prefix.
Proof.
  induction v as [| b | f | s | l IH | m IH] using JSON_ind; intros prefix;
    try done.
  - destruct l as [|first rest]; [done|].
    apply Forall_cons in IH as [IH _]. simpl. apply IH.
  - apply set_eq. intros p.
    change (extractKeys (JObject m)) with (JObject (extractKeys <$> m)).
    rewrite !collectAllKeys_object. split.
    + intros (k & child & Hk & Hp). rewrite lookup_fmap in Hk.
      destruct (m !! k) as [c|] eqn:Hc; simplify_eq/=.
      exists k, c. split; [done|]. by rewrite <- (IH k c Hc).
    + intros (k & child & Hk & Hp). exists k, (extractKeys child).
      rewrite lookup_fmap, Hk. split; [done|]. by rewrite (IH k child Hk).
Qed.

End key_paths.

(** ** The comparison engine *)

Section comparator_properties.
Import comparator spec.
Context `{codec : !JSONCodec, difflib : !DiffLib, patchlib : !PatchLib}.


Lemma isValidJSON_Ok data v : Unmarshal data = Ok v → isValidJSON data = true.
Proof. unfold isValidJSON. by intros ->. Qed.

(** On two documents that decode, and when the patch library succeeds,
    the comparison returns a result whose summary is the summary of the
    mode. *)
Lemma CompareWithOptions_json original modified name1 name2 opts v1 v2 patch :
  Unmarshal original = Ok v1 →
  Unmarshal modified = Ok v2 →
  jsondiff_Compare (if KeysOnly opts then extractKeys v1 else v1)
                   (if KeysOnly opts then extractKeys v2 else v2) = Ok patch →
  ∃ r, CompareWithOptions original modified name1 name2 opts = Ok r ∧
       IsJSON r = true ∧
       Summary r =
         if KeysOnly opts
         then summarizeKeyDifferences (extractKeys v1) (extractKeys v2)
         else summarizeDifferences v1 v2.
Proof.
  intros H1 H2 Hp. unfold CompareWithOptions.
  rewrite (isValidJSON_Ok _ _ H1), (isValidJSON_Ok _ _ H2). simpl.
  unfold compareAsJSON. rewrite H1, H2.
  destruct (KeysOnly opts); rewrite Hp; eauto.
Qed.

(** The counting loop counts the changed positions. *)
Lemma changedCount_positions (arr1 arr2 : list JSON) :
  changedCount arr1 arr2 = length (changedPositions arr1 arr2).
Proof.
  unfold changedCount, changedPositions.
  generalize (seq 0 (length arr1)). intros l.
  assert (∀ n, foldl (λ c i, if deepEqual (arr1 !!! i) (arr2 !!! i)
                             then c else c + 1) n l =
               n + length (filter (λ i, deepEqual (arr1 !!! i) (arr2 !!! i) = false) l))
    as Hgen; [|by rewrite Hgen].
  induction l as [|i l IH]; intros n; simpl; [lia|].
  rewrite IH, filter_cons.
  destruct (deepEqual (arr1 !!! i) (arr2 !!! i)); simpl; lia.
Qed.

Lemma filter_elements_difference (X Y : gset string) :
  filter (λ k, k ∉ Y) (elements X) ≡ₚ elements (X ∖ Y).
Proof.
  apply NoDup_Permutation.
  - apply NoDup_filter, NoDup_elements.
  - apply NoDup_elements.
  - intros k. rewrite list_elem_of_filter, !elem_of_elements, elem_of_difference.
    tauto.
Qed.

(** The messages of [summarizeKeyDifferences], up to their order. *)
Lemma keyChanges_keyReport (keys1 keys2 : gset string) :
  ((λ k, "Key '" +:+ k +:+ "' removed") <$>
     filter (λ k, k ∉ keys2) (elements keys1)) ++
  ((λ k, "Key '" +:+ k +:+ "' added") <$>
     filter (λ k, k ∉ keys1) (elements keys2))
  ≡ₚ keyReport keys1 keys2.
Proof. unfold keyReport. by rewrite !filter_elements_difference. Qed.

Lemma keyReport_nil (keys1 keys2 : gset string) :
  keyReport keys1 keys2 = [] ↔ keys1 = keys2.
Proof.
  unfold keyReport. split.
  - intros H. apply app_eq_nil in H as [H1 H2].
    apply fmap_nil_inv, elements_empty_inv in H1.
    apply fmap_nil_inv, elements_empty_inv in H2.
    apply set_eq. intros k. destruct (decide (k ∈ keys1)), (decide (k ∈ keys2)); set_solver.
  - intros ->. by rewrite difference_diag_L, elements_empty.
Qed.

Lemma summarizeKeyDifferences_keyReport (v1 v2 : JSON) :
  summarizeKeyDifferences v1 v2 =
  if decide (collectAllKeys v1 "" = collectAllKeys v2 "")
  then "No structural changes (keys match)"
  else Join (sort_Strings (keyReport (collectAllKeys v1 "") (collectAllKeys v2 ""))) ", ".
Proof.
  unfold summarizeKeyDifferences.
  rewrite (sort_Strings_unique _ _ (keyChanges_keyReport _ _)).
  rewrite sort_Strings_length.
  destruct (decide (collectAllKeys v1 "" = collectAllKeys v2 "")) as [Heq|Hne].
  - apply keyReport_nil in Heq. rewrite Heq. done.
  - rewrite decide_False; [done|]. intros Hlen. apply Hne, keyReport_nil.
    by apply nil_length_inv.
Qed.

Lemma elem_of_map_keys {V : Type} (m : gmap string V) (k : string) :
  k ∈ (map_to_list m).*1 ↔ k ∈ dom m.
Proof.
  rewrite elem_of_dom, list_elem_of_fmap. split.
  - intros ([k' v] & -> & Hin). apply elem_of_map_to_list in Hin. eauto.
  - intros [v Hv]. exists (k, v). split; [done|]. by apply elem_of_map_to_list.
Qed.

(** The first loop of [summarizeDifferences] over any part of the left
    object. *)
Lemma objectChanges_first (m1 m2 : gmap string JSON) (l : list (string * JSON)) :
  (∀ k v, (k, v) ∈ l → m1 !! k = Some v) →
  omap (λ kv : string * JSON,
    match m2 !! kv.1 with
    | None => Some ("Field '" +:+ kv.1 +:+ "' removed")
    | Some val2 =>
      if deepEqual kv.2 val2 then None
      else Some ("Field '" +:+ kv.1 +:+ "' changed")
    end) l
  ≡ₚ ((λ k, "Field '" +:+ k +:+ "' removed") <$> filter (λ k, k ∉ dom m2) l.*1) ++
     ((λ k, "Field '" +:+ k +:+ "' changed") <$>
        filter (λ k, k ∈ dom m2 ∧ deepEqual (m1 !!! k) (m2 !!! k) = false) l.*1).
Proof.
  induction l as [|[k v] l IH]; intros Hl; [done|].
  assert (m1 !! k = Some v) as Hk by (apply Hl; left).
  specialize (IH (λ k' v' Hin, Hl k' v' (list_elem_of_further _ _ _ Hin))).
  rewrite fmap_cons, !filter_cons. cbn [omap list_omap fst snd].
  rewrite (lookup_total_correct m1 k v Hk).
  destruct (m2 !! k) as [val2|] eqn:H2.
  - rewrite (lookup_total_correct m2 k val2 H2).
    assert (k ∈ dom m2) as Hd by (apply elem_of_dom; eauto).
    rewrite decide_False by tauto.
    destruct (deepEqual v val2) eqn:He.
    + rewrite decide_False by (intros [_ ?]; done). apply IH.
    + rewrite decide_True by done. rewrite fmap_cons.
      rewrite <- Permutation_middle. by constructor.
  - assert (k ∉ dom m2) as Hd by (by apply not_elem_of_dom).
    rewrite decide_True by done. rewrite decide_False by tauto.
    rewrite fmap_cons. simpl. by constructor.
Qed.

Lemma objectChanges_second (m1 : gmap string JSON) (l : list (string * JSON)) :
  omap (λ kv : string * JSON,
    match m1 !! kv.1 with
    | None => Some ("Field '" +:+ kv.1 +:+ "' added")
    | Some _ => None
    end) l
  = (λ k, "Field '" +:+ k +:+ "' added") <$> filter (λ k, k ∉ dom m1) l.*1.
Proof.
  induction l as [|[k v] l IH]; [done|].
  rewrite fmap_cons, filter_cons. cbn [omap list_omap fst snd].
  destruct (m1 !! k) as [val1|] eqn:H1.
  - rewrite decide_False; [done|]. intros Hn. apply Hn, elem_of_dom. eauto.
  - rewrite decide_True by (by apply not_elem_of_dom). rewrite fmap_cons.
    by f_equal.
Qed.

Lemma filter_keys_difference (m1 m2 : gmap string JSON) :
  filter (λ k, k ∉ dom m2) (map_to_list m1).*1 ≡ₚ elements (dom m1 ∖ dom m2).
Proof.
  apply NoDup_Permutation.
  - apply NoDup_filter, NoDup_fst_map_to_list.
  - apply NoDup_elements.
  - intros k. rewrite list_elem_of_filter, elem_of_map_keys, elem_of_elements,
      elem_of_difference. tauto.
Qed.

Lemma filter_keys_changed (m1 m2 : gmap string JSON) :
  filter (λ k, k ∈ dom m2 ∧ deepEqual (m1 !!! k) (m2 !!! k) = false)
         (map_to_list m1).*1
  ≡ₚ changedFields m1 m2.
Proof.
  apply NoDup_Permutation.
  - apply NoDup_filter, NoDup_fst_map_to_list.
  - apply NoDup_filter, NoDup_elements.
  - intros k. unfold changedFields.
    rewrite !list_elem_of_filter, elem_of_map_keys, elem_of_elements,
      elem_of_intersection. tauto.
Qed.

(** The messages of [summarizeDifferences] on two objects, up to their
    order. *)
Lemma objectChanges_fieldReport (m1 m2 : gmap string JSON) :
  objectChanges m1 m2 ≡ₚ fieldReport m1 m2.
Proof.
  unfold objectChanges, fieldReport.
  rewrite objectChanges_first by (intros k v; apply elem_of_map_to_list).
  rewrite objectChanges_second.
  rewrite !filter_keys_difference, filter_keys_changed.
  by rewrite <- app_assoc.
Qed.

Lemma summarizeDifferences_object (m1 m2 : gmap string JSON) :
  summarizeDifferences (JObject m1) (JObject m2) =
  if decide (fieldReport m1 m2 = []) then "No top-level changes"
  else Join (sort_Strings (fieldReport m1 m2)) ", ".
Proof.
  cbn [summarizeDifferences].
  rewrite (sort_Strings_unique _ _ (objectChanges_fieldReport m1 m2)).
  rewrite sort_Strings_length.
  destruct (decide (fieldReport m1 m2 = [])) as [->|Hne]; [done|].
  rewrite decide_False; [done|]. intros Hlen. by apply Hne, nil_length_inv.
Qed.

Lemma summarizeDifferences_array (arr1 arr2 : list JSON) :
  summarizeDifferences (JArray arr1) (JArray arr2) =
  summarizeArrayDifferences arr1 arr2.
Proof. done. Qed.

End comparator_properties.

(** ** Claims about the comparison engine *)

Section comparator_claims.
Import comparator spec.
Context `{codec : !JSONCodec, difflib : !DiffLib, patchlib : !PatchLib}.

Lemma deepEqual_spec (x1 x2 : JSON) :
  deepEqual x1 x2 = true ↔ ∃ b, Marshal x1 = Ok b ∧ Marshal x2 = Ok b.
Proof.
  unfold deepEqual. destruct (Marshal x1) as [b1|e1], (Marshal x2) as [b2|e2];
    try (split; [done | by intros (b & ? & ?)]).
  rewrite bool_decide_eq_true. split.
  - intros ->. eauto.
  - intros (b & ? & ?). congruence.
Qed.


(** C5 (as amended): in full mode, on two arrays of equal length N of
    which K positions hold elements that are not equal under
    re-serialization, the summary is "Array: K of N items changed" when K
    is not zero and "No top-level changes" when K is zero; when the lengths
    differ the summary reports the two lengths. *)
Theorem C5_array_summary (original modified name1 name2 : string)
    (arr1 arr2 : list JSON) (patch : Patch) :
  Unmarshal original = Ok (JArray arr1) →
  Unmarshal modified = Ok (JArray arr2) →
  jsondiff_Compare (JArray arr1) (JArray arr2) = Ok patch →
  ∃ r, Compare original modified name1 name2 = Ok r ∧
    let N := length arr1 in
    let K := length (changedPositions arr1 arr2) in
    Summary r =
      if decide (length arr1 ≠ length arr2)
      then "Array length changed: " +:+ Itoa (length arr1) +:+ " → " +:+
           Itoa (length arr2) +:+ " items"
      else if decide (K = 0) then "No top-level changes"
      else "Array: " +:+ Itoa K +:+ " of " +:+ Itoa N +:+ " items changed".
Proof.
  intros H1 H2 Hp.
  destruct (CompareWithOptions_json original modified name1 name2
              {| KeysOnly := false |} _ _ patch H1 H2 Hp) as (r & Hr & _ & Hs).
  exists r. split; [done|]. cbn [KeysOnly] in Hs. rewrite Hs, summarizeDifferences_array.
  unfold summarizeArrayDifferences. by rewrite changedCount_positions.
Qed.

(** C6: in keys-only mode, on two documents that decode, the summary is
    built from the key paths reachable in the two documents, which are the
    key paths reachable in their skeletons (an array contributing the one
    segment that stands for its first element): "Key '<path>' removed" for
    each path of the left document only and "Key '<path>' added" for each
    path of the right document only, sorted and joined with commas; when
    the two path sets are equal, which is the case when the two documents
    differ in scalar values only, the summary is "No structural changes
    (keys match)". *)
Theorem C6_keys_only_summary (original modified name1 name2 : string)
    (v1 v2 : JSON) (patch : Patch) :
  Unmarshal original = Ok v1 →
  Unmarshal modified = Ok v2 →
  jsondiff_Compare (extractKeys v1) (extractKeys v2) = Ok patch →
  ∃ r (left right : gset string),
    CompareWithOptions original modified name1 name2 {| KeysOnly := true |} = Ok r ∧
    (∀ p, p ∈ left ↔ KeyPath v1 "" p) ∧
    (∀ p, p ∈ right ↔ KeyPath v2 "" p) ∧
    (∀ p, KeyPath (extractKeys v1) "" p ↔ KeyPath v1 "" p) ∧
    (∀ p, KeyPath (extractKeys v2) "" p ↔ KeyPath v2 "" p) ∧
    Summary r =
      (if decide (left = right) then "No structural changes (keys match)"
       else Join (sort_Strings (keyReport left right)) ", ") ∧
    Sorted String.le (sort_Strings (keyReport left right)) ∧
    sort_Strings (keyReport left right) ≡ₚ keyReport left right ∧
    ((∀ p, KeyPath v1 "" p ↔ KeyPath v2 "" p) →
     Summary r = "No structural changes (keys match)").
Proof.
  intros H1 H2 Hp.
  destruct (CompareWithOptions_json original modified name1 name2
              {| KeysOnly := true |} _ _ patch H1 H2 Hp) as (r & Hr & _ & Hs).
  cbn [KeysOnly] in Hs.
  exists r, (collectAllKeys v1 ""), (collectAllKeys v2 "").
  split; [done|].
  split; [intros p; apply collectAllKeys_KeyPath|].
  split; [intros p; apply collectAllKeys_KeyPath|].
  split; [intros p; by rewrite <- !collectAllKeys_KeyPath, extractKeys_paths|].
  split; [intros p; by rewrite <- !collectAllKeys_KeyPath, extractKeys_paths|].
  rewrite Hs, summarizeKeyDifferences_keyReport, !extractKeys_paths.
  split; [done|].
  split; [apply sort_Strings_Sorted|].
  split; [apply sort_Strings_Permutation|].
  intros Hsame. rewrite decide_True; [done|].
  apply set_eq. intros p. by rewrite !collectAllKeys_KeyPath.
Qed.

(** C7: in full mode, on two objects, the summary reports the top-level
    fields removed, changed and added, the messages sorted and joined with
    commas, where a field present on both sides is changed exactly when its
    two values do not re-serialize to the same text; with no such field the
    summary is "No top-level changes". *)
Theorem C7_object_summary (original modified name1 name2 : string)
    (m1 m2 : gmap string JSON) (patch : Patch) :
  Unmarshal original = Ok (JObject m1) →
  Unmarshal modified = Ok (JObject m2) →
  jsondiff_Compare (JObject m1) (JObject m2) = Ok patch →
  ∃ r, Compare original modified name1 name2 = Ok r ∧
    Summary r =
      (if decide (fieldReport m1 m2 = []) then "No top-level changes"
       else Join (sort_Strings (fieldReport m1 m2)) ", ") ∧
    Sorted String.le (sort_Strings (fieldReport m1 m2)) ∧
    sort_Strings (fieldReport m1 m2) ≡ₚ fieldReport m1 m2 ∧
    (∀ k, k ∈ changedFields m1 m2 ↔
       ∃ x1 x2, m1 !! k = Some x1 ∧ m2 !! k = Some x2 ∧
                ¬ ∃ b, Marshal x1 = Ok b ∧ Marshal x2 = Ok b).
Proof.
  intros H1 H2 Hp.
  destruct (CompareWithOptions_json original modified name1 name2
              {| KeysOnly := false |} _ _ patch H1 H2 Hp) as (r & Hr & _ & Hs).
  exists r. split; [done|]. cbn [KeysOnly] in Hs.
  rewrite Hs, summarizeDifferences_object.
  split; [done|].
  split; [apply sort_Strings_Sorted|].
  split; [apply sort_Strings_Permutation|].
  intros k. unfold changedFields.
  rewrite list_elem_of_filter, elem_of_elements, elem_of_intersection,
    !elem_of_dom.
  split.
  - intros (Hne & [x1 Hx1] & [x2 Hx2]). exists x1, x2.
    rewrite (lookup_total_correct m1 k x1 Hx1),
      (lookup_total_correct m2 k x2 Hx2) in Hne.
    split; [done|]. split; [done|]. rewrite <- deepEqual_spec. by rewrite Hne.
  - intros (x1 & x2 & Hx1 & Hx2 & Hne).
    rewrite (lookup_total_correct m1 k x1 Hx1),
      (lookup_total_correct m2 k x2 Hx2).
    split; [|eauto]. rewrite <- deepEqual_spec in Hne.
    by destruct (deepEqual x1 x2).
Qed.

End comparator_claims.

(** ** The execution coordinator: one scenario *)

Section ordering.
Import core.

Global Instance ExecInfo_le_total : Total ExecInfo_le.
Proof. intros a b. apply (total String.le). Qed.

Global Instance ExecInfo_le_trans : Transitive ExecInfo_le.
Proof. intros a b c. unfold ExecInfo_le. apply transitivity. Qed.

Lemma Sorted_le_filter (P : string → Prop) `{!∀ v, Decision (P v)}
    (l : list string) :
  Sorted String.le l → Sorted String.le (filter P l).
Proof.
  intros Hs. apply Sorted_StronglySorted in Hs; [|apply _].
  apply StronglySorted_Sorted.
  induction Hs as [|x l Hl IH Hx]; [constructor|].
  rewrite filter_cons. case_decide; [|done].
  constructor; [done|]. apply Forall_forall. intros y Hy.
  apply list_elem_of_filter in Hy as [_ Hy].
  by eapply Forall_forall in Hx.
Qed.

Lemma Sorted_ExecInfo_versions (l : list ExecInfo) :
  Sorted ExecInfo_le l ↔ Sorted String.le (ExecInfo_Version <$> l).
Proof.
  split.
  - apply Sorted_fmap. auto.
  - induction l as [|a l IH]; [constructor|]. rewrite fmap_cons.
    intros Hs. apply Sorted_inv in Hs as [Hs Hhd].
    constructor; [auto|]. destruct l; [constructor|].
    apply HdRel_inv in Hhd. by constructor.
Qed.

(** Whatever [sort.Slice] does with entries whose labels are pairwise
    distinct, it returns [sort_ExecInfo]. *)
Lemma sort_ExecInfo_unique (l sorted : list ExecInfo) :
  NoDup (ExecInfo_Version <$> l) →
  sorted ≡ₚ l →
  Sorted ExecInfo_le sorted →
  sorted = sort_ExecInfo l.
Proof.
  intros Hnd Hp Hs.
  assert (sorted ≡ₚ sort_ExecInfo l) as Hp'.
  { rewrite Hp. symmetry. apply merge_sort_Permutation. }
  apply (keyed_list_eq ExecInfo_Version); [by rewrite Hp|done|].
  apply (Sorted_unique String.le).
  - by apply Sorted_ExecInfo_versions.
  - apply Sorted_ExecInfo_versions, (Sorted_merge_sort ExecInfo_le).
  - by rewrite Hp'.
Qed.

End ordering.

Section scenario.
Import comparator config executor core spec.
Context `{codec : !JSONCodec, difflib : !DiffLib, patchlib : !PatchLib}.
Context `{sys : !Sys, env : !Env}.

Lemma task_version (tcIdx : nat) (timeout : Z) (v url cmdRaw : string) :
  version (task tcIdx timeout v url cmdRaw) = v ∧
  ExecInfo_Version (execInfo (task tcIdx timeout v url cmdRaw)) = v ∧
  ExecInfo_File (execInfo (task tcIdx timeout v url cmdRaw)) =
    filePath (task tcIdx timeout v url cmdRaw).
Proof.
  unfold task. destruct (Execute _ _ _ _ _) as [res [e|]]; [done|].
  by destruct (SaveResponse _ _ _ _ _).
Qed.

Lemma launch_spec (cfg : Config) (versions : list string) (timeout : Z)
    (tcIdx : nat) (testCase : TestCase) :
  Forall2 (λ r v, version r = v ∧ ExecInfo_Version (execInfo r) = v ∧
                  ExecInfo_File (execInfo r) = filePath r)
    (launch cfg versions timeout tcIdx testCase)
    (filter (λ v, is_Some (TestCase_Commands testCase !! v)) versions).
Proof.
  unfold launch. induction versions as [|v versions IH]; [constructor|].
  rewrite filter_cons. cbn [omap list_omap].
  destruct (TestCase_Commands testCase !! v) as [cmd|] eqn:Hc.
  - rewrite decide_True by eauto. constructor; [apply task_version|apply IH].
  - rewrite decide_False by (by intros [? ?]). apply IH.
Qed.

Lemma launch_versions (cfg : Config) (versions : list string) (timeout : Z)
    (tcIdx : nat) (testCase : TestCase) :
  version <$> launch cfg versions timeout tcIdx testCase =
    filter (λ v, is_Some (TestCase_Commands testCase !! v)) versions ∧
  ExecInfo_Version <$> (execInfo <$> launch cfg versions timeout tcIdx testCase) =
    filter (λ v, is_Some (TestCase_Commands testCase !! v)) versions.
Proof.
  pose proof (launch_spec cfg versions timeout tcIdx testCase) as H.
  induction H as [|r v l k (Hv & He & _) _ [IH1 IH2]]; [done|].
  rewrite !fmap_cons. split; congruence.
Qed.

Lemma collect_snoc (l : list execResult) (x : execResult) :
  collect (l ++ [x]) =
  if decide (filePath x ≠ "") then <[version x := filePath x]> (collect l)
  else collect l.
Proof. unfold collect. by rewrite foldl_snoc. Qed.

(** The map [results] holds the non-empty paths of the received results. *)
Lemma collect_lookup (l : list execResult) (v p : string) :
  NoDup (version <$> l) →
  collect l !! v = Some p ↔
  ∃ r, r ∈ l ∧ version r = v ∧ filePath r = p ∧ p ≠ "".
Proof.
  induction l as [|x l IH] using rev_ind; intros Hnd.
  - unfold collect. simpl. rewrite lookup_empty. split; [done|].
    intros (r & Hr & _). by apply elem_of_nil in Hr.
  - rewrite fmap_app in Hnd. apply NoDup_app in Hnd as (Hnd & Hx & _).
    specialize (IH Hnd). rewrite collect_snoc.
    assert (∀ r, r ∈ l → version r ≠ version x) as Hfresh.
    { intros r Hr Heq. apply (Hx (version r)); [by apply list_elem_of_fmap_2|].
      rewrite Heq. simpl. left. }
    setoid_rewrite elem_of_app. setoid_rewrite list_elem_of_singleton.
    case_decide as Hpath.
    + destruct (decide (version x = v)) as [<-|Hne].
      * rewrite lookup_insert_eq. split.
        -- intros [= <-]. exists x. auto.
        -- intros (r & [Hr| ->] & Hv & Hp & _); [by apply Hfresh in Hr|].
           by rewrite Hp.
      * rewrite lookup_insert_ne by done. rewrite IH. split.
        -- intros (r & Hr & ?). exists r. auto.
        -- intros (r & [Hr| ->] & Hv & ?); [eauto|done].
    + rewrite IH. split.
      * intros (r & Hr & ?). exists r. auto.
      * intros (r & [Hr| ->] & Hv & Hp & Hp'); [eauto|].
        exfalso. apply Hp'. by rewrite <- Hp.
Qed.

(** The order in which the results arrive does not change [results]. *)
Lemma collect_Permutation (l1 l2 : list execResult) :
  NoDup (version <$> l1) → l1 ≡ₚ l2 → collect l1 = collect l2.
Proof.
  intros Hnd Hp. apply map_eq. intros v. apply option_eq. intros p.
  rewrite !collect_lookup; [|by rewrite <- Hp|done].
  by setoid_rewrite Hp.
Qed.


End scenario.

Section scenario_report.
Import comparator config executor core spec.
Context `{codec : !JSONCodec, difflib : !DiffLib, patchlib : !PatchLib}.
Context `{sys : !Sys, env : !Env}.

Lemma launch_NoDup cfg versions timeout tcIdx testCase :
  NoDup versions →
  NoDup (version <$> launch cfg versions timeout tcIdx testCase) ∧
  NoDup (ExecInfo_Version <$> (execInfo <$> launch cfg versions timeout tcIdx testCase)).
Proof.
  intros Hnd.
  destruct (launch_versions cfg versions timeout tcIdx testCase) as [-> ->].
  split; by apply NoDup_filter.
Qed.

Lemma elem_of_launch cfg versions timeout tcIdx testCase r :
  r ∈ launch cfg versions timeout tcIdx testCase →
  version r = ExecInfo_Version (execInfo r) ∧
  filePath r = ExecInfo_File (execInfo r) ∧
  version r ∈ versions ∧
  is_Some (TestCase_Commands testCase !! version r).
Proof.
  unfold launch. intros (v & Hv & Hr)%list_elem_of_omap.
  destruct (TestCase_Commands testCase !! v) as [cmd|] eqn:Hc; [|done].
  injection Hr as <-.
  destruct (task_version tcIdx timeout v (default "" (Versions cfg !! v)) cmd)
    as (-> & -> & ->).
  rewrite Hc. eauto.
Qed.

(** The outcome list of a scenario is the list of the launched tasks'
    outcomes, in the order of the sorted labels. *)
Lemma runTestCase_ExecInfo s cfg versions timeout tcIdx testCase :
  fair s → NoDup versions → Sorted String.le versions →
  CommandResult_ExecInfo (runTestCase s cfg versions timeout tcIdx testCase) =
  execInfo <$> launch cfg versions timeout tcIdx testCase.
Proof.
  intros [_ Hrecv] Hnd Hs. unfold runTestCase. cbn [CommandResult_ExecInfo].
  symmetry. apply sort_ExecInfo_unique.
  - rewrite Hrecv. by apply launch_NoDup.
  - by rewrite Hrecv.
  - apply Sorted_ExecInfo_versions.
    destruct (launch_versions cfg versions timeout tcIdx testCase) as [_ ->].
    by apply Sorted_le_filter.
Qed.

Lemma runTestCase_results s cfg versions timeout tcIdx testCase :
  fair s → NoDup versions →
  collect (receive s tcIdx (launch cfg versions timeout tcIdx testCase)) =
  collect (launch cfg versions timeout tcIdx testCase).
Proof.
  intros [_ Hrecv] Hnd. symmetry. apply collect_Permutation.
  - by apply launch_NoDup.
  - by rewrite Hrecv.
Qed.


(** The index loop over the labels visits the adjacent pairs. *)
Lemma index_loop_adjacentPairs {X : Type} (g : string → string → X)
    (labels : list string) :
  (if decide (1 < length labels)
   then (λ i, g (labels !!! i) (labels !!! (i + 1))) <$> seq 0 (length labels - 1)
   else []) =
  (λ p, g p.1 p.2) <$> adjacentPairs labels.
Proof.
  assert (∀ l : list string,
    (λ i, g (l !!! i) (l !!! (i + 1))) <$> seq 0 (length l - 1) =
    (λ p, g p.1 p.2) <$> adjacentPairs l) as Hgen.
  { induction l as [|a [|b rest] IH]; [done..|].
    change (adjacentPairs (a :: b :: rest))
      with ((a, b) :: adjacentPairs (b :: rest)).
    rewrite fmap_cons, <- IH.
    replace (length (a :: b :: rest) - 1) with (S (length (b :: rest) - 1))
      by (simpl; lia).
    cbn [seq]. rewrite fmap_cons. f_equal.
    rewrite <- fmap_S_seq, <- list_fmap_compose. by apply list_fmap_ext. }
  case_decide as Hlen; [apply Hgen|].
  destruct labels as [|a [|b rest]]; [done..|]. simpl in Hlen. lia.
Qed.


(** The diff list of a scenario: one entry per adjacent pair of labels,
    computed from the locators of the outcome list. *)
Lemma runTestCase_Diffs s cfg versions timeout tcIdx testCase :
  fair s → NoDup versions →
  Diffs (runTestCase s cfg versions timeout tcIdx testCase) =
  (λ p, comparePair (KeysOnly cfg) tcIdx
          (collect (launch cfg versions timeout tcIdx testCase)) p.1 p.2)
    <$> adjacentPairs versions.
Proof.
  intros Hs Hnd. unfold runTestCase. cbn [Diffs].
  rewrite runTestCase_results by done.
  apply (index_loop_adjacentPairs
    (comparePair (KeysOnly cfg) tcIdx
       (collect (launch cfg versions timeout tcIdx testCase)))).
Qed.

(** Neither schedule shows in the report of a scenario. *)
Lemma runTestCase_schedule s1 s2 cfg versions timeout tcIdx testCase :
  fair s1 → fair s2 → NoDup versions → Sorted String.le versions →
  runTestCase s1 cfg versions timeout tcIdx testCase =
  runTestCase s2 cfg versions timeout tcIdx testCase.
Proof.
  intros H1 H2 Hnd Hs.
  pose proof (runTestCase_ExecInfo s1 cfg versions timeout tcIdx testCase H1 Hnd Hs) as He1.
  pose proof (runTestCase_ExecInfo s2 cfg versions timeout tcIdx testCase H2 Hnd Hs) as He2.
  pose proof (runTestCase_Diffs s1 cfg versions timeout tcIdx testCase H1 Hnd) as Hd1.
  pose proof (runTestCase_Diffs s2 cfg versions timeout tcIdx testCase H2 Hnd) as Hd2.
  unfold runTestCase in *. cbn [Diffs CommandResult_ExecInfo] in *.
  f_equal; congruence.
Qed.

End scenario_report.

(** ** The execution coordinator: a run *)

Section run.
Import comparator config executor core spec.
Context `{codec : !JSONCodec, difflib : !DiffLib, patchlib : !PatchLib}.
Context `{sys : !Sys, env : !Env}.

(** The labels of a run are the keys of [cfg.Versions] in ascending order,
    whatever the iteration order. *)
Lemma sortedVersions_spec (s : Schedule) (cfg : Config) :
  fair s →
  sortedVersions s cfg = sort_Strings (elements (dom (Versions cfg))) ∧
  NoDup (sortedVersions s cfg) ∧
  Sorted String.le (sortedVersions s cfg) ∧
  ∀ v, v ∈ sortedVersions s cfg ↔ is_Some (Versions cfg !! v).
Proof.
  intros [Hrange _]. unfold sortedVersions.
  rewrite (sort_Strings_unique _ _ (Hrange _)).
  split; [done|]. split; [apply sort_Strings_NoDup, NoDup_elements|].
  split; [apply sort_Strings_Sorted|].
  intros v. by rewrite sort_Strings_Permutation, elem_of_elements, elem_of_dom.
Qed.

Lemma completed_le (i n : nat) : (completed i n ≤ n)%nat.
Proof.
  revert i. induction n as [|n IH]; intros i; simpl; [lia|].
  destruct (ctxDone i); [lia|]. specialize (IH (S i)). lia.
Qed.

Lemma completed_live (i n j : nat) :
  j < completed i n → ctxDone (i + j) = None.
Proof.
  revert i j. induction n as [|n IH]; intros i j; simpl; [lia|].
  destruct (ctxDone i) eqn:Hi; [lia|]. intros Hj.
  destruct j as [|j]; [by rewrite Nat.add_0_r|].
  replace (i + S j) with (S i + j) by lia. apply IH. lia.
Qed.

Lemma completed_stop (i n : nat) :
  completed i n < n → is_Some (ctxDone (i + completed i n)).
Proof.
  revert i. induction n as [|n IH]; intros i; simpl; [lia|].
  destruct (ctxDone i) eqn:Hi.
  - rewrite Nat.add_0_r, Hi. eauto.
  - intros Hlt. replace (i + S (completed (S i) n)) with (S i + completed (S i) n) by lia.
    apply IH. lia.
Qed.

Lemma completed_all (i n : nat) :
  (∀ j, j < n → ctxDone (i + j) = None) → completed i n = n.
Proof.
  revert i. induction n as [|n IH]; intros i Hlive; simpl; [done|].
  rewrite <- (Nat.add_0_r i) at 1. rewrite (Hlive 0) by lia.
  f_equal. apply IH. intros j Hj.
  replace (S i + j) with (i + S j) by lia. apply Hlive. lia.
Qed.

Lemma take_S_insert {X : Type} (l : list X) (i : nat) (x : X) :
  i < length l → take (S i) (<[i := x]> l) = take i l ++ [x].
Proof.
  intros Hi. rewrite (take_S_r _ _ x) by (by apply list_lookup_insert_eq).
  by rewrite take_insert_ge.
Qed.

(** The loop fills the slots of the scenarios it starts, in order, and
    leaves the other slots as they were; it ends with the error of the
    context when it finds the context done. *)
Lemma scenarios_spec (s : Schedule) (cfg : Config) (versions : list string)
    (timeout : Z) (testCases : list TestCase) :
  ∀ (tcIdx : nat) (runResult : RunResult),
  length (CommandResults runResult) = tcIdx + length testCases →
  let k := completed tcIdx (length testCases) in
  let out := scenarios s cfg versions timeout tcIdx testCases runResult in
  CommandResults out.1 =
    take tcIdx (CommandResults runResult) ++
    imap (λ j tc, runTestCase s cfg versions timeout (tcIdx + j) tc)
         (take k testCases) ++
    drop (tcIdx + k) (CommandResults runResult) ∧
  out.2 = (if decide (k < length testCases) then ctxDone (tcIdx + k) else None) ∧
  Errors out.1 =
    Errors runResult ++
    match out.2 with
    | Some e => ["operation cancelled: " +:+ ctxError_Error e]
    | None => []
    end.
Proof.
  induction testCases as [|tc rest IH]; intros i rr Hlen.
  - cbn. rewrite Nat.add_0_r, take_drop, app_nil_r. done.
  - cbn [scenarios completed length].
    destruct (ctxDone i) as [e|] eqn:Hi.
    + cbn. rewrite Nat.add_0_r, take_drop, Hi. done.
    + cbn [length] in Hlen.
      specialize (IH (S i)
        {| CommandResults := <[i := runTestCase s cfg versions timeout i tc]>
                               (CommandResults rr);
           Errors := Errors rr |}).
      cbn [CommandResults Errors] in IH. rewrite length_insert in IH.
      destruct IH as (IH1 & IH2 & IH3); [lia|].
      split; [|split].
      * rewrite IH1. rewrite take_S_insert by lia.
        rewrite drop_insert_lt by lia.
        cbn [take]. rewrite imap_cons, Nat.add_0_r.
        rewrite <- app_assoc. cbn [app]. f_equal. f_equal.
        replace (S i + completed (S i) (length rest))
          with (i + S (completed (S i) (length rest))) by lia.
        f_equal. apply imap_ext. intros j x _. cbn.
        by replace (i + S j) with (S (i + j)) by lia.
      * rewrite IH2.
        replace (S i + completed (S i) (length rest))
          with (i + S (completed (S i) (length rest))) by lia.
        repeat case_decide; (done || lia).
      * done.
Qed.

(** The report of a run: the reports of the scenarios started before the
    context is found done, in the order of the test cases, followed by as
    many zero-valued entries as there are test cases left. *)
Lemma RunWithContext_spec (s : Schedule) (cfg : Config) :
  let testCases := GetTestCases cfg in
  let k := completed 0 (length testCases) in
  let out := RunWithContext s cfg in
  CommandResults out.1 =
    imap (λ j tc, runTestCase s cfg (sortedVersions s cfg) (GetTimeout cfg) j tc)
         (take k testCases) ++
    replicate (length testCases - k) zeroCommandResult ∧
  out.2 = (if decide (k < length testCases) then ctxDone k else None) ∧
  Errors out.1 =
    match out.2 with
    | Some e => ["operation cancelled: " +:+ ctxError_Error e]
    | None => []
    end.
Proof.
  intros testCases k out. unfold out, RunWithContext.
  destruct (scenarios_spec s cfg (sortedVersions s cfg) (GetTimeout cfg)
              (GetTestCases cfg) 0
              {| CommandResults :=
                   replicate (length (GetTestCases cfg)) zeroCommandResult;
                 Errors := [] |}) as (H1 & H2 & H3).
  { cbn. by rewrite length_replicate. }
  cbn [CommandResults Errors] in *. fold testCases in H1, H2, H3 |- *.
  fold k in H1, H2. rewrite H1, H2, H3. cbn [take app Nat.add].
  rewrite drop_replicate. by rewrite H2.
Qed.

(** A scenario started by the run has its report in its slot. *)
Lemma RunWithContext_lookup (s : Schedule) (cfg : Config) (i : nat) (tc : TestCase) :
  GetTestCases cfg !! i = Some tc →
  i < completed 0 (length (GetTestCases cfg)) →
  CommandResults (RunWithContext s cfg).1 !! i =
  Some (runTestCase s cfg (sortedVersions s cfg) (GetTimeout cfg) i tc).
Proof.
  intros Htc Hi. destruct (RunWithContext_spec s cfg) as (-> & _).
  pose proof (completed_le 0 (length (GetTestCases cfg))).
  rewrite lookup_app_l by (rewrite length_imap, length_take; lia).
  rewrite list_lookup_imap, lookup_take_lt by done. by rewrite Htc.
Qed.

Lemma scenarios_schedule (s1 s2 : Schedule) (cfg : Config)
    (versions : list string) (timeout : Z) (testCases : list TestCase) :
  fair s1 → fair s2 → NoDup versions → Sorted String.le versions →
  ∀ tcIdx runResult,
  scenarios s1 cfg versions timeout tcIdx testCases runResult =
  scenarios s2 cfg versions timeout tcIdx testCases runResult.
Proof.
  intros H1 H2 Hnd Hs.
  induction testCases as [|tc rest IH]; intros i rr; [done|].
  cbn [scenarios]. destruct (ctxDone i); [done|].
  by rewrite (runTestCase_schedule s1 s2), IH.
Qed.

(** Neither the iteration order of the version map nor the completion order
    of the tasks shows in the result of a run. *)
Lemma RunWithContext_schedule (s1 s2 : Schedule) (cfg : Config) :
  fair s1 → fair s2 → RunWithContext s1 cfg = RunWithContext s2 cfg.
Proof.
  intros H1 H2. unfold RunWithContext.
  destruct (sortedVersions_spec s1 cfg H1) as (E1 & Hnd & Hs & _).
  destruct (sortedVersions_spec s2 cfg H2) as (E2 & _).
  rewrite E2, <- E1. by apply scenarios_schedule.
Qed.

End run.

(** ** Tasks, pairs and counts *)

Section tasks.
Import comparator config executor core spec.
Context `{codec : !JSONCodec, difflib : !DiffLib, patchlib : !PatchLib}.
Context `{sys : !Sys, env : !Env}.

Lemma Execute_TimedOut (call : nat) (cmdRaw v url : string) (timeout : Z) :
  TimedOut (Execute call cmdRaw v url timeout).1 = true ↔
  deadlineOverrun call cmdRaw v url timeout.
Proof.
  unfold Execute, deadlineOverrun.
  destruct (shellwords_Parse _) as [[|cmdName cmdArgs]|e] eqn:Hparse; cbn.
  - split; [done|]. by intros (? & ? & ? & _).
  - case_decide as Hctx; cbn.
    + split; [eauto|done].
    + destruct (runErr _); cbn; (split; [done|]);
        intros (? & ? & [= <- <-] & ?); done.
  - split; [done|]. by intros (? & ? & ? & _).
Qed.

Lemma Execute_TimedOut_err (call : nat) (cmdRaw v url : string) (timeout : Z) :
  TimedOut (Execute call cmdRaw v url timeout).1 = true →
  (Execute call cmdRaw v url timeout).2 = Some (ctxError_Error DeadlineExceeded).
Proof.
  unfold Execute.
  destruct (shellwords_Parse _) as [[|cmdName cmdArgs]|e]; cbn; try done.
  case_decide; cbn; [done|]. by destruct (runErr _).
Qed.

(** The outcome a task records for a command that overran its deadline. *)
Lemma task_TimedOut (tcIdx : nat) (timeout : Z) (v url cmdRaw : string) :
  let outcome := execInfo (task tcIdx timeout v url cmdRaw) in
  (ExecInfo_TimedOut outcome = true ↔ deadlineOverrun tcIdx cmdRaw v url timeout) ∧
  (ExecInfo_TimedOut outcome = true →
   ExecInfo_Error outcome = "timeout after " +:+ DurationString timeout ∧
   ExecInfo_File outcome = "" ∧
   filePath (task tcIdx timeout v url cmdRaw) = "").
Proof.
  cbn zeta. rewrite <- Execute_TimedOut.
  pose proof (Execute_TimedOut_err tcIdx cmdRaw v url timeout) as Herr.
  unfold task. destruct (Execute _ _ _ _ _) as [res [e|]]; cbn in *.
  - split; [done|]. by intros ->.
  - destruct (SaveResponse _ _ _ _ _); cbn; (split; [done|]);
      intros Ht; by specialize (Herr Ht).
Qed.

Lemma elem_of_launch_task cfg versions timeout tcIdx testCase r :
  r ∈ launch cfg versions timeout tcIdx testCase →
  ∃ v cmd, v ∈ versions ∧ TestCase_Commands testCase !! v = Some cmd ∧
    r = task tcIdx timeout v (default "" (Versions cfg !! v)) cmd.
Proof.
  unfold launch. intros (v & Hv & Hr)%list_elem_of_omap.
  destruct (TestCase_Commands testCase !! v) as [cmd|] eqn:Hc; [|done].
  injection Hr as <-. eauto.
Qed.

Lemma comparePair_labels keysOnly tcIdx results vBase vTarget :
  VersionA (comparePair keysOnly tcIdx results vBase vTarget) = vBase ∧
  VersionB (comparePair keysOnly tcIdx results vBase vTarget) = vTarget.
Proof.
  unfold comparePair.
  destruct (results !! vBase), (results !! vTarget); try done.
  by destruct (compareFiles _ _ _ _ _ _) as [[[? ?] ?]|?].
Qed.


Lemma String_app_ne_empty (a b : string) : a ≠ "" → a +:+ b ≠ "".
Proof. by destruct a. Qed.

(** The errors of [compareFiles] are never empty. *)
Lemma compareFiles_Err tcIdx file1 file2 v1 v2 keysOnly e :
  compareFiles tcIdx file1 file2 v1 v2 keysOnly = Err e → e ≠ "".
Proof.
  unfold compareFiles.
  destruct (ReadFile tcIdx file1) as [b1|e1];
    [|intros [= <-]; by apply String_app_ne_empty].
  destruct (ReadFile tcIdx file2) as [b2|e2];
    [|intros [= <-]; by apply String_app_ne_empty].
  case_decide; [intros [= <-]; by apply String_app_ne_empty|].
  case_decide; [intros [= <-]; by apply String_app_ne_empty|].
  destruct (CompareWithOptions _ _ _ _ _) as [r|e'] eqn:Hc; [done|].
  intros [= <-]. revert Hc. unfold CompareWithOptions, compareAsText, compareAsJSON.
  repeat (case_match; try done);
    intros [= <-]; by apply String_app_ne_empty.
Qed.


End tasks.

Section counting.
Import comparator config executor core spec.
Context `{codec : !JSONCodec, difflib : !DiffLib, patchlib : !PatchLib}.
Context `{sys : !Sys, env : !Env}.







End counting.

(** ** Claims about the execution coordinator *)

Section coordinator_claims.
Import comparator config executor core spec.
Context `{codec : !JSONCodec, difflib : !DiffLib, patchlib : !PatchLib}.
Context `{sys : !Sys, env : !Env}.

(** C2: the order of the version labels is computed once per run, is the
    ascending lexicographic order of the configured labels, and is the order
    of every scenario's outcome list and of its adjacent pairs; the result
    of a run is the same for every iteration order of the configured
    versions and every completion order of the tasks. *)
Theorem C2_version_order_stable (s1 s2 : Schedule) (cfg : Config) :
  fair s1 → fair s2 →
  let versions := sort_Strings (elements (dom (Versions cfg))) in
  RunWithContext s1 cfg = RunWithContext s2 cfg ∧
  sortedVersions s1 cfg = versions ∧
  sortedVersions s2 cfg = versions ∧
  Sorted String.le versions ∧ NoDup versions ∧
  ∀ i tc, GetTestCases cfg !! i = Some tc →
    i < completed 0 (length (GetTestCases cfg)) →
    ∃ r, CommandResults (RunWithContext s1 cfg).1 !! i = Some r ∧
      ExecInfo_Version <$> CommandResult_ExecInfo r =
        filter (λ v, is_Some (TestCase_Commands tc !! v)) versions ∧
      (λ d, (VersionA d, VersionB d)) <$> Diffs r = adjacentPairs versions.
Proof.
  intros H1 H2 versions.
  destruct (sortedVersions_spec s1 cfg H1) as (E1 & Hnd & Hs & _).
  destruct (sortedVersions_spec s2 cfg H2) as (E2 & _).
  fold versions in E1, E2.
  split; [by apply RunWithContext_schedule|].
  split; [done|]. split; [done|].
  rewrite E1 in Hnd, Hs. split; [done|]. split; [done|].
  intros i tc Htc Hi. eexists. split; [by apply RunWithContext_lookup|].
  rewrite E1. rewrite runTestCase_ExecInfo, runTestCase_Diffs by done.
  split; [apply launch_versions|].
  rewrite <- list_fmap_compose. etrans; [|apply list_fmap_id].
  apply list_fmap_ext. intros ? [a b] _. cbn.
  by destruct (comparePair_labels (KeysOnly cfg) i
    (collect (launch cfg versions (GetTimeout cfg) i tc)) a b) as [-> ->].
Qed.


(** C8: the outcome recorded for a task has its timed-out flag set exactly
    when the task's command was run and overran the deadline of its
    per-command timeout; its error text then records the timeout.  Such an
    outcome is one entry among those of its scenario, which holds one
    outcome per version that has a command; and which scenarios are run,
    and the error the run returns, depend on the cancellation signal
    alone. *)
Theorem C8_timeout_flag (s : Schedule) (cfg : Config) :
  fair s →
  let out := RunWithContext s cfg in
  let testCases := GetTestCases cfg in
  let timeout := GetTimeout cfg in
  (∀ i tc, testCases !! i = Some tc → i < completed 0 (length testCases) →
     ∃ r, CommandResults out.1 !! i = Some r ∧
       ExecInfo_Version <$> CommandResult_ExecInfo r =
         filter (λ v, is_Some (TestCase_Commands tc !! v)) (sortedVersions s cfg) ∧
       ∀ e, e ∈ CommandResult_ExecInfo r →
         ∃ cmd, TestCase_Commands tc !! ExecInfo_Version e = Some cmd ∧
           let url := default "" (Versions cfg !! ExecInfo_Version e) in
           (ExecInfo_TimedOut e = true ↔
            deadlineOverrun i cmd (ExecInfo_Version e) url timeout) ∧
           (ExecInfo_TimedOut e = true →
            ExecInfo_Error e = "timeout after " +:+ DurationString timeout ∧
            ExecInfo_File e = "")) ∧
  length (CommandResults out.1) = length testCases ∧
  out.2 = (if decide (completed 0 (length testCases) < length testCases)
           then ctxDone (completed 0 (length testCases)) else None) ∧
  ((∀ i, i < length testCases → ctxDone i = None) →
   out.2 = None ∧ Errors out.1 = [] ∧
   completed 0 (length testCases) = length testCases).
Proof.
  intros Hs out testCases timeout.
  destruct (sortedVersions_spec s cfg Hs) as (_ & Hnd & Hsorted & _).
  destruct (RunWithContext_spec s cfg) as (Hres & Herr & Herrs).
  fold out testCases in Hres, Herr, Herrs.
  pose proof (completed_le 0 (length testCases)) as Hle.
  split; [|split; [|split]].
  - intros i tc Htc Hi. eexists. split; [by apply RunWithContext_lookup|].
    rewrite runTestCase_ExecInfo by done.
    split; [apply launch_versions|].
    intros e (r & -> & Hr)%list_elem_of_fmap.
    apply elem_of_launch_task in Hr as (v & cmd & Hv & Hcmd & ->).
    destruct (task_version i (GetTimeout cfg) v (default "" (Versions cfg !! v)) cmd)
      as (_ & -> & _).
    exists cmd. split; [done|].
    destruct (task_TimedOut i (GetTimeout cfg) v (default "" (Versions cfg !! v)) cmd)
      as (Hiff & Htext).
    split; [done|]. intros Ht. by destruct (Htext Ht) as (? & ? & _).
  - rewrite Hres, length_app, length_imap, length_take, length_replicate. lia.
  - done.
  - intros Hlive. rewrite Herrs, Herr.
    rewrite (completed_all 0 (length testCases)) by done.
    by rewrite decide_False by lia.
Qed.


End coordinator_claims.

(** ** Claims about the cancellation of a run and the legacy form *)

Section run_claims.
Import comparator config executor core spec.
Context `{codec : !JSONCodec, difflib : !DiffLib, patchlib : !PatchLib}.
Context `{sys : !Sys, env : !Env}.

(** What a run returns when it finds the context done before scenario [k]:
    the cancellation error, the reports of the [k] scenarios before it, and
    one zero-valued entry for each scenario it did not start. *)
Lemma RunWithContext_cancelled (s : Schedule) (cfg : Config) (k : nat) (e : ctxError) :
  k < length (GetTestCases cfg) →
  (∀ j, j < k → ctxDone j = None) →
  ctxDone k = Some e →
  let out := RunWithContext s cfg in
  out.2 = Some e ∧
  Errors out.1 = ["operation cancelled: " +:+ ctxError_Error e] ∧
  CommandResults out.1 =
    imap (λ j tc, runTestCase s cfg (sortedVersions s cfg) (GetTimeout cfg) j tc)
         (take k (GetTestCases cfg)) ++
    replicate (length (GetTestCases cfg) - k) zeroCommandResult.
Proof.
  intros Hk Hlive Hdone out.
  destruct (RunWithContext_spec s cfg) as (Hres & Herr & Herrs).
  fold out in Hres, Herr, Herrs.
  assert (completed 0 (length (GetTestCases cfg)) = k) as Hc.
  { pose proof (completed_le 0 (length (GetTestCases cfg))) as Hle.
    destruct (Nat.lt_trichotomy (completed 0 (length (GetTestCases cfg))) k)
      as [Hlt|[Heq|Hgt]]; [|done|].
    - assert (completed 0 (length (GetTestCases cfg)) < length (GetTestCases cfg))
        as Hstop by lia.
      apply completed_stop in Hstop. cbn [Nat.add] in Hstop.
      rewrite Hlive in Hstop by done. by destruct Hstop.
    - apply (completed_live 0) in Hgt. cbn [Nat.add] in Hgt. congruence. }
  rewrite Hc in Hres, Herr. rewrite decide_True in Herr by done.
  rewrite Herrs, Herr, Hdone. done.
Qed.

(** The commands of a converted scenario: the one command under every
    configured label. *)
Lemma sharedCommands_fmap (versions : gmap string string) (cmd : string) :
  sharedCommands versions cmd = (λ _, cmd) <$> versions.
Proof.
  unfold sharedCommands.
  apply (map_fold_weak_ind (λ r m, r = (λ _ : string, cmd) <$> m)).
  - by rewrite fmap_empty.
  - intros k x m r Hk ->. by rewrite fmap_insert.
Qed.

Lemma sharedCommands_lookup (versions : gmap string string) (cmd v : string) :
  sharedCommands versions cmd !! v =
  if decide (v ∈ dom versions) then Some cmd else None.
Proof.
  rewrite sharedCommands_fmap, lookup_fmap.
  destruct (versions !! v) as [url|] eqn:Hv.
  - rewrite decide_True; [done|]. apply elem_of_dom. eauto.
  - rewrite decide_False; [done|]. by apply not_elem_of_dom.
Qed.

Lemma GetTestCases_idem (cfg : Config) :
  GetTestCases {| Versions := Versions cfg; Commands := Commands cfg;
                  TestCases := GetTestCases cfg; KeysOnly := KeysOnly cfg;
                  Timeout := Timeout cfg |} = GetTestCases cfg.
Proof.
  unfold GetTestCases at 1. cbn [TestCases Commands Versions].
  case_decide as Hlen; [done|].
  unfold GetTestCases in *. case_decide; [lia|].
  rewrite length_imap in Hlen. by destruct (Commands cfg); [|simpl in Hlen; lia].
Qed.

Lemma scenarios_same_fields (s : Schedule) (cfg cfg' : Config)
    (versions : list string) (timeout : Z) (testCases : list TestCase) :
  Versions cfg' = Versions cfg → KeysOnly cfg' = KeysOnly cfg →
  ∀ tcIdx runResult,
  scenarios s cfg' versions timeout tcIdx testCases runResult =
  scenarios s cfg versions timeout tcIdx testCases runResult.
Proof.
  intros Hv Hk. induction testCases as [|tc rest IH]; intros i rr; [done|].
  cbn [scenarios]. destruct (ctxDone i); [done|]. rewrite IH.
  unfold runTestCase, launch. by rewrite Hv, Hk.
Qed.

(** C10: a configuration in the legacy flat form runs as its matrix form.
    With no test cases and commands c1..cn the normalization yields n
    scenarios in the order of the commands, scenario i being named
    "Command i" (from 1) and mapping every configured version label to ci;
    a configuration with test cases is returned as it is; and a run of a
    configuration is the run of the configuration with its normalized test
    cases written in. *)
Theorem C10_legacy_normalization (cfg : Config) :
  (0 < length (TestCases cfg) → GetTestCases cfg = TestCases cfg) ∧
  (TestCases cfg = [] →
   length (GetTestCases cfg) = length (Commands cfg) ∧
   ∀ i ci, Commands cfg !! i = Some ci →
     ∃ tc, GetTestCases cfg !! i = Some tc ∧
       TestCase_Name tc = "Command " +:+ Itoa (i + 1) ∧
       ∀ v, TestCase_Commands tc !! v =
            if decide (v ∈ dom (Versions cfg)) then Some ci else None) ∧
  ∀ s : Schedule,
    RunWithContext s cfg =
    RunWithContext s {| Versions := Versions cfg; Commands := Commands cfg;
                        TestCases := GetTestCases cfg; KeysOnly := KeysOnly cfg;
                        Timeout := Timeout cfg |}.
Proof.
  split; [|split].
  - intros Hlen. unfold GetTestCases. by rewrite decide_True.
  - intros Hnil. unfold GetTestCases. rewrite Hnil. cbn [length].
    rewrite decide_False by lia. split; [apply length_imap|].
    intros i ci Hi. eexists. split.
    + rewrite list_lookup_imap, Hi. reflexivity.
    + split; [done|]. intros v. apply sharedCommands_lookup.
  - intros s. unfold RunWithContext. rewrite GetTestCases_idem.
    symmetry. by apply scenarios_same_fields.
Qed.

End run_claims.

(** ** The claims on concrete inputs *)

Section examples.
Import comparator config executor core spec fixtures.

Lemma fair_inOrder : fair inOrder.
Proof. by split. Qed.

Lemma fair_reversed : fair reversed.
Proof. split; intros; apply reverse_Permutation. Qed.


(** Full compare of [[1,2,3]] and [[1,9,3]]. *)
Lemma C5_array_summary_witness :
  ∃ r, Compare (codec := exampleCodec) (difflib := wholeDiff)
         (patchlib := rootPatch) "[1,2,3]" "[1,9,3]" "v1.json" "v2.json" = Ok r ∧
       Summary r = "Array: 1 of 3 items changed".
Proof.
  destruct (C5_array_summary (codec := exampleCodec) (difflib := wholeDiff)
              (patchlib := rootPatch) "[1,2,3]" "[1,9,3]" "v1.json" "v2.json"
              [JNumber 1; JNumber 2; JNumber 3] [JNumber 1; JNumber 9; JNumber 3]
              [ {| Type_ := OpReplace; Path := ""; Value := Some array_1_9_3 |} ])
    as (r & Hr & Hs).
  - evaluate.
  - evaluate.
  - evaluate.
  - exists r. split; [exact Hr|]. rewrite Hs. evaluate.
Defined.

(** C5, as stated, fails on two equal arrays: none of the 3 positions is
    changed and the summary is not "Array: 0 of 3 items changed". *)
Lemma C5_equal_arrays_counterexample :
  ∃ r, Compare (codec := exampleCodec) (difflib := wholeDiff)
         (patchlib := rootPatch) "[1,2,3]" "[1,2,3]" "v1.json" "v2.json" = Ok r ∧
       Unmarshal (JSONCodec := exampleCodec) "[1,2,3]" = Ok array_1_2_3 ∧
       length (changedPositions (codec := exampleCodec)
                 [JNumber 1; JNumber 2; JNumber 3]
                 [JNumber 1; JNumber 2; JNumber 3]) = 0 ∧
       Summary r = "No top-level changes" ∧
       Summary r ≠ "Array: " +:+ Itoa 0 +:+ " of " +:+ Itoa 3 +:+ " items changed".
Proof.
  eexists. split; [evaluate|].
  split; [evaluate|].
  split; [evaluate|].
  split; [evaluate|].
  vm_compute. discriminate.
Qed.

(** Keys-only compare of two objects that differ in a scalar value. *)
Lemma C6_keys_only_summary_witness :
  ∃ r, CompareWithOptions (codec := exampleCodec) (difflib := wholeDiff)
         (patchlib := rootPatch) text_a1_b2 text_a99_b2 "v1.json" "v2.json"
         {| comparator.KeysOnly := true |} = Ok r ∧
       Summary r = "No structural changes (keys match)".
Proof.
  destruct (C6_keys_only_summary (codec := exampleCodec) (difflib := wholeDiff)
              (patchlib := rootPatch) text_a1_b2 text_a99_b2 "v1.json" "v2.json"
              object_a1_b2 object_a99_b2 [])
    as (r & left & right & Hr & Hl & Hrt & _ & _ & Hs & _).
  - evaluate.
  - evaluate.
  - evaluate.
  - exists r. split; [exact Hr|]. rewrite Hs.
    apply decide_True. apply set_eq. intros p. rewrite Hl, Hrt.
    rewrite <- !collectAllKeys_KeyPath.
    replace (collectAllKeys object_a99_b2 "")
      with (collectAllKeys object_a1_b2 "");
      [done|evaluate].
Defined.

(** Full compare of [{"a":1}] and [{"a":1,"b":2}]. *)
Lemma C7_object_summary_witness :
  ∃ r, Compare (codec := exampleCodec) (difflib := wholeDiff)
         (patchlib := rootPatch) text_a1 text_a1_b2 "v1.json" "v2.json" = Ok r ∧
       Summary r = "Field 'b' added".
Proof.
  destruct (C7_object_summary (codec := exampleCodec) (difflib := wholeDiff)
              (patchlib := rootPatch) text_a1 text_a1_b2 "v1.json" "v2.json"
              {[ "a" := JNumber 1 ]}
              (<[ "a" := JNumber 1 ]> {[ "b" := JNumber 2 ]})
              [ {| Type_ := OpReplace; Path := ""; Value := Some object_a1_b2 |} ])
    as (r & Hr & Hs & _).
  - evaluate.
  - evaluate.
  - evaluate.
  - exists r. split; [exact Hr|]. rewrite Hs. evaluate.
Defined.

(** Three versions of which the middle one overruns its deadline, under
    the two schedules. *)
Lemma C2_version_order_stable_witness :
  RunWithContext (codec := exampleCodec) (difflib := wholeDiff)
    (patchlib := rootPatch) (sys := middleOverruns) (env := twoFiles)
    inOrder threeVersions =
  RunWithContext (codec := exampleCodec) (difflib := wholeDiff)
    (patchlib := rootPatch) (sys := middleOverruns) (env := twoFiles)
    reversed threeVersions ∧
  sortedVersions reversed threeVersions = ["a"; "b"; "c"].
Proof.
  destruct (C2_version_order_stable (codec := exampleCodec) (difflib := wholeDiff)
              (patchlib := rootPatch) (sys := middleOverruns) (env := twoFiles)
              inOrder reversed threeVersions fair_inOrder fair_reversed)
    as (Hrun & _ & Hv & _).
  split; [exact Hrun|]. rewrite Hv. evaluate.
Defined.



(** C4 on a run of two scenarios whose context is found done before the
    second: the run stops with the cancellation error after one scenario,
    and its report holds two entries, the second one zero-valued, where the
    claim has the report hold the completed scenario only. *)
Lemma C4_cancelled_run_keeps_empty_slots :
  let out := RunWithContext (codec := exampleCodec) (difflib := wholeDiff)
               (patchlib := rootPatch) (sys := allSucceed)
               (env := cancelledAfterFirst) inOrder twoScenarios in
  out.2 = Some Canceled ∧
  completed (env := cancelledAfterFirst) 0 (length (GetTestCases twoScenarios)) = 1 ∧
  length (CommandResults out.1) = 2 ∧
  TestCaseName <$> CommandResults out.1 = ["Command 1"; ""] ∧
  CommandResults out.1 !! 1 = Some zeroCommandResult ∧
  Errors out.1 = ["operation cancelled: context canceled"].
Proof. vm_compute. repeat split; reflexivity. Qed.

(** Three versions of which the middle one overruns its deadline. *)
Lemma C8_timeout_flag_witness :
  ExecInfo_TimedOut <$>
    (CommandResults
       (RunWithContext (codec := exampleCodec) (difflib := wholeDiff)
          (patchlib := rootPatch) (sys := middleOverruns) (env := twoFiles)
          inOrder threeVersions).1 ≫= CommandResult_ExecInfo)
    = [false; true; false] ∧
  (RunWithContext (codec := exampleCodec) (difflib := wholeDiff)
     (patchlib := rootPatch) (sys := middleOverruns) (env := twoFiles)
     inOrder threeVersions).2 = None.
Proof.
  destruct (C8_timeout_flag (codec := exampleCodec) (difflib := wholeDiff)
              (patchlib := rootPatch) (sys := middleOverruns) (env := twoFiles)
              inOrder threeVersions fair_inOrder)
    as (_ & _ & _ & Hlive).
  split; [evaluate|].
  apply Hlive. intros i _. reflexivity.
Defined.



(** The legacy configuration of three versions and one command. *)
Lemma C10_legacy_normalization_witness :
  TestCase_Name <$> GetTestCases threeVersions = ["Command 1"] ∧
  RunWithContext (codec := exampleCodec) (difflib := wholeDiff)
    (patchlib := rootPatch) (sys := middleFails) (env := twoFiles)
    inOrder threeVersions =
  RunWithContext (codec := exampleCodec) (difflib := wholeDiff)
    (patchlib := rootPatch) (sys := middleFails) (env := twoFiles) inOrder
    {| Versions := Versions threeVersions; Commands := Commands threeVersions;
       TestCases := GetTestCases threeVersions;
       KeysOnly := KeysOnly threeVersions; Timeout := Timeout threeVersions |}.
Proof.
  destruct (C10_legacy_normalization (codec := exampleCodec)
              (difflib := wholeDiff) (patchlib := rootPatch)
              (sys := middleFails) (env := twoFiles) threeVersions)
    as (_ & _ & Hrun).
  split; [evaluate|]. apply Hrun.
Defined.

End examples.

(** ** More on the comparison engine *)

Section comparator_more.
Import comparator spec invariants.
Context `{codec : !JSONCodec, difflib : !DiffLib, patchlib : !PatchLib}.

Lemma filter_nil_Forall {X : Type} (P : X → Prop) `{!∀ x, Decision (P x)}
    (l : list X) :
  filter P l = [] ↔ Forall (λ x, ¬ P x) l.
Proof.
  induction l as [|x l IH]; [by rewrite filter_nil|].
  rewrite filter_cons, Forall_cons, <- IH. destruct (decide (P x)); [|tauto].
  split; [discriminate|tauto].
Qed.

(** A joined list starts like its first element. *)
Lemma Join_first_byte (l : list string) (sep : string) (c : ascii) :
  l ≠ [] → Forall (λ x, ∃ s, x = String c s) l → ∃ s, Join l sep = String c s.
Proof.
  intros Hne Hl. destruct l as [|x rest]; [done|].
  apply Forall_cons in Hl as [[s ->] _].
  destruct rest as [|y rest]; [by exists s|].
  by exists (s +:+ sep +:+ Join (y :: rest) sep).
Qed.

Lemma sort_Strings_first_byte (l : list string) (c : ascii) :
  l ≠ [] → Forall (λ x, ∃ s, x = String c s) l →
  ∃ s, Join (sort_Strings l) ", " = String c s.
Proof.
  intros Hne Hl. apply Join_first_byte.
  - by rewrite sort_Strings_nil_iff.
  - by rewrite sort_Strings_Permutation.
Qed.

Lemma keyReport_first_byte (keys1 keys2 : gset string) :
  Forall (λ x, ∃ s, x = String "K" s) (keyReport keys1 keys2).
Proof.
  unfold keyReport. apply Forall_app. split; apply Forall_fmap, Forall_forall;
    intros k _; simpl; eauto.
Qed.

Lemma fieldReport_first_byte (m1 m2 : gmap string JSON) :
  Forall (λ x, ∃ s, x = String "F" s) (fieldReport m1 m2).
Proof.
  unfold fieldReport. repeat (apply Forall_app; split);
    apply Forall_fmap, Forall_forall; intros k _; simpl; eauto.
Qed.

Lemma summarizeKeyDifferences_cases (v1 v2 : JSON) :
  (collectAllKeys v1 "" = collectAllKeys v2 "" ∧
   summarizeKeyDifferences v1 v2 = "No structural changes (keys match)") ∨
  (collectAllKeys v1 "" ≠ collectAllKeys v2 "" ∧
   ∃ s, summarizeKeyDifferences v1 v2 = String "K" s).
Proof.
  rewrite summarizeKeyDifferences_keyReport.
  destruct (decide (collectAllKeys v1 "" = collectAllKeys v2 "")) as [Heq|Hne];
    [by left|right]. split; [done|].
  apply sort_Strings_first_byte; [|apply keyReport_first_byte].
  by rewrite keyReport_nil.
Qed.

Lemma fieldReport_nil (m1 m2 : gmap string JSON) :
  fieldReport m1 m2 = [] ↔
  dom m1 = dom m2 ∧
  ∀ k x1 x2, m1 !! k = Some x1 → m2 !! k = Some x2 → deepEqual x1 x2 = true.
Proof.
  unfold fieldReport, changedFields. split.
  - intros H. apply app_eq_nil in H as [H1 H]. apply app_eq_nil in H as [H2 H3].
    apply fmap_nil_inv, elements_empty_inv in H1.
    apply fmap_nil_inv, elements_empty_inv in H3.
    apply fmap_nil_inv in H2.
    split.
    + apply set_eq. intros k.
      destruct (decide (k ∈ dom m1)), (decide (k ∈ dom m2)); set_solver.
    + intros k x1 x2 Hx1 Hx2.
      destruct (deepEqual x1 x2) eqn:He; [done|exfalso].
      assert (k ∈ filter (λ k, deepEqual (m1 !!! k) (m2 !!! k) = false)
                         (elements (dom m1 ∩ dom m2))) as Hin.
      { rewrite list_elem_of_filter, elem_of_elements, elem_of_intersection,
          !elem_of_dom.
        rewrite (lookup_total_correct m1 k x1 Hx1),
          (lookup_total_correct m2 k x2 Hx2). eauto. }
      rewrite H2 in Hin. by apply elem_of_nil in Hin.
  - intros [Hd Heq]. rewrite Hd, difference_diag_L, elements_empty.
    rewrite (proj2 (filter_nil_Forall _ _)); [done|].
    apply Forall_forall. intros k Hk.
    rewrite elem_of_elements, elem_of_intersection, !elem_of_dom in Hk.
    destruct Hk as [_ [x2 Hx2]].
    assert (is_Some (m1 !! k)) as [x1 Hx1].
    { apply elem_of_dom. rewrite Hd. apply elem_of_dom. eauto. }
    rewrite (lookup_total_correct m1 k x1 Hx1),
      (lookup_total_correct m2 k x2 Hx2), (Heq k x1 x2 Hx1 Hx2). done.
Qed.

Lemma changedPositions_nil (arr1 arr2 : list JSON) :
  length arr1 = length arr2 →
  changedPositions arr1 arr2 = [] ↔
  ∀ i x1 x2, arr1 !! i = Some x1 → arr2 !! i = Some x2 → deepEqual x1 x2 = true.
Proof.
  intros Hlen. unfold changedPositions. rewrite filter_nil_Forall, Forall_forall.
  split.
  - intros H i x1 x2 Hx1 Hx2.
    assert (i ∈ seq 0 (length arr1)) as Hi.
    { apply elem_of_seq. apply lookup_lt_Some in Hx1. lia. }
    specialize (H i Hi).
    rewrite (list_lookup_total_correct arr1 i x1 Hx1),
      (list_lookup_total_correct arr2 i x2 Hx2) in H.
    by destruct (deepEqual x1 x2).
  - intros H i Hi. apply elem_of_seq in Hi.
    destruct (lookup_lt_is_Some_2 arr1 i) as [x1 Hx1]; [lia|].
    destruct (lookup_lt_is_Some_2 arr2 i) as [x2 Hx2]; [lia|].
    rewrite (list_lookup_total_correct arr1 i x1 Hx1),
      (list_lookup_total_correct arr2 i x2 Hx2), (H i x1 x2 Hx1 Hx2). done.
Qed.

Lemma summarizeDifferences_object_iff (m1 m2 : gmap string JSON) :
  summarizeDifferences (JObject m1) (JObject m2) = "No top-level changes" ↔
  dom m1 = dom m2 ∧
  ∀ k x1 x2, m1 !! k = Some x1 → m2 !! k = Some x2 → deepEqual x1 x2 = true.
Proof.
  rewrite summarizeDifferences_object, <- fieldReport_nil.
  destruct (decide (fieldReport m1 m2 = [])) as [Heq|Hne]; [done|].
  destruct (sort_Strings_first_byte (fieldReport m1 m2) "F" Hne
              (fieldReport_first_byte m1 m2)) as [s ->].
  split; [discriminate|done].
Qed.

Lemma summarizeDifferences_array_iff (arr1 arr2 : list JSON) :
  summarizeDifferences (JArray arr1) (JArray arr2) = "No top-level changes" ↔
  length arr1 = length arr2 ∧
  ∀ i x1 x2, arr1 !! i = Some x1 → arr2 !! i = Some x2 → deepEqual x1 x2 = true.
Proof.
  rewrite summarizeDifferences_array. unfold summarizeArrayDifferences.
  rewrite changedCount_positions.
  destruct (decide (length arr1 ≠ length arr2)) as [Hne|Heq].
  { split; [discriminate|]. by intros [? _]. }
  apply dec_stable in Heq. rewrite <- (changedPositions_nil _ _ Heq).
  destruct (decide (length (changedPositions arr1 arr2) = 0)) as [H0|Hn].
  - apply nil_length_inv in H0. by rewrite H0.
  - split; [discriminate|]. intros [_ H]. by rewrite H in Hn.
Qed.

End comparator_more.

Section comparator_extras.
Import comparator spec invariants.
Context `{codec : !JSONCodec, difflib : !DiffLib, patchlib : !PatchLib}.

Lemma compareAsText_Ok original modified name1 name2 isJSON1 isJSON2 r :
  compareAsText original modified name1 name2 isJSON1 isJSON2 = Ok r →
  IsJSON r = false ∧ JsonPatch r = "[]" ∧
  ∃ c s, c ∈ ["B"; "R"]%char ∧ Summary r = String c s.
Proof.
  unfold compareAsText.
  destruct (GetUnifiedDiffString _) as [textDiff [e|]]; [discriminate|].
  destruct (negb isJSON1 && negb isJSON2), (negb isJSON1),
    (decide (original = modified)); intros [= <-]; simpl;
    (split; [done|]); (split; [done|]);
    eexists _, _; (split; [|reflexivity]); set_solver.
Qed.

Lemma compareAsJSON_Ok original modified name1 name2 opts r :
  compareAsJSON original modified name1 name2 opts = Ok r →
  IsJSON r = true ∧
  ∃ v1 v2, Unmarshal original = Ok v1 ∧ Unmarshal modified = Ok v2 ∧
    Summary r = if KeysOnly opts
                then summarizeKeyDifferences (extractKeys v1) (extractKeys v2)
                else summarizeDifferences v1 v2.
Proof.
  unfold compareAsJSON.
  destruct (Unmarshal original) as [v1|e1]; [|discriminate].
  destruct (Unmarshal modified) as [v2|e2]; [|discriminate].
  destruct (KeysOnly opts); destruct (jsondiff_Compare _ _); try discriminate;
    intros [= <-]; simpl; (split; [done|]); by exists v1, v2.
Qed.


(** X2: the skeleton that keys-only mode compares holds nothing of the
    values: its leaves are the four type markers and its arrays have at
    most one element; and it has exactly the key paths of the document. *)
Theorem extractKeys_Skeleton (v : JSON) :
  Skeleton (extractKeys v) ∧
  ∀ p, KeyPath (extractKeys v) "" p ↔ KeyPath v "" p.
Proof.
  split.
  - induction v as [| b | f | s | l IH | m IH] using JSON_ind;
      try (constructor; set_solver).
    + destruct l as [|first rest]; [constructor|].
      apply Forall_cons in IH as [IH _]. by constructor.
    + change (extractKeys (JObject m)) with (JObject (extractKeys <$> m)).
      constructor. intros k child Hk. rewrite lookup_fmap in Hk.
      destruct (m !! k) as [c|] eqn:Hc; simplify_eq/=. by apply (IH k c).
  - intros p. by rewrite <- !collectAllKeys_KeyPath, extractKeys_paths.
Qed.

(** X3: the keys-only summary reads "No structural changes (keys match)"
    exactly when the two documents have the same key paths; any other
    keys-only summary starts with a "Key '...'" message. *)
Theorem keys_match_iff (v1 v2 : JSON) :
  (summarizeKeyDifferences v1 v2 = "No structural changes (keys match)" ↔
   ∀ p, KeyPath v1 "" p ↔ KeyPath v2 "" p) ∧
  (summarizeKeyDifferences v1 v2 = "No structural changes (keys match)" ∨
   ∃ s, summarizeKeyDifferences v1 v2 = "Key '" +:+ s).
Proof.
  assert ((∀ p, KeyPath v1 "" p ↔ KeyPath v2 "" p) ↔
          collectAllKeys v1 "" = collectAllKeys v2 "") as ->.
  { rewrite set_eq. by setoid_rewrite collectAllKeys_KeyPath. }
  rewrite summarizeKeyDifferences_keyReport.
  destruct (decide (collectAllKeys v1 "" = collectAllKeys v2 "")) as [Heq|Hne];
    [tauto|].
  assert (keyReport (collectAllKeys v1 "") (collectAllKeys v2 "") ≠ []) as Hnil
    by (by rewrite keyReport_nil).
  destruct (sort_Strings (keyReport (collectAllKeys v1 "") (collectAllKeys v2 "")))
    as [|x rest] eqn:Hs; [exfalso; apply Hnil; by apply sort_Strings_nil_iff|].
  assert (x ∈ keyReport (collectAllKeys v1 "") (collectAllKeys v2 "")) as Hx.
  { rewrite <- sort_Strings_Permutation, Hs. left. }
  assert (∃ s, x = "Key '" +:+ s) as [s ->].
  { unfold keyReport in Hx. apply elem_of_app in Hx as [Hx|Hx];
      apply list_elem_of_fmap in Hx as (k & -> & _); eauto. }
  split.
  - split; [|done]. destruct rest; discriminate.
  - right. destruct rest as [|y rest]; [eauto|].
    exists (s +:+ ", " +:+ Join (y :: rest) ", "). reflexivity.
Qed.

(** X4: in full mode, two objects are summarized as "No top-level changes"
    exactly when they have the same top-level fields and every field
    re-serializes to the same text on both sides; two arrays, exactly when
    they have the same length and every position does. *)
Theorem no_top_level_changes_iff :
  (∀ m1 m2 : gmap string JSON,
     summarizeDifferences (JObject m1) (JObject m2) = "No top-level changes" ↔
     dom m1 = dom m2 ∧
     ∀ k x1 x2, m1 !! k = Some x1 → m2 !! k = Some x2 →
       ∃ b, Marshal x1 = Ok b ∧ Marshal x2 = Ok b) ∧
  (∀ arr1 arr2 : list JSON,
     summarizeDifferences (JArray arr1) (JArray arr2) = "No top-level changes" ↔
     length arr1 = length arr2 ∧
     ∀ i x1 x2, arr1 !! i = Some x1 → arr2 !! i = Some x2 →
       ∃ b, Marshal x1 = Ok b ∧ Marshal x2 = Ok b).
Proof.
  split.
  - intros m1 m2. rewrite summarizeDifferences_object_iff.
    by setoid_rewrite deepEqual_spec.
  - intros arr1 arr2. rewrite summarizeDifferences_array_iff.
    by setoid_rewrite deepEqual_spec.
Qed.

(** X5: the summary "No top-level changes", on which the command line
    prints "No significant differences.", is only ever produced by a
    full-mode comparison of two buffers that decode as JSON: never by the
    text comparison and never in keys-only mode. *)
Theorem no_top_level_changes_full_mode original modified name1 name2 opts r :
  CompareWithOptions original modified name1 name2 opts = Ok r →
  Summary r = "No top-level changes" →
  IsJSON r = true ∧ KeysOnly opts = false.
Proof.
  unfold CompareWithOptions.
  destruct (negb (isValidJSON original) || negb (isValidJSON modified)); intros Hr Hs.
  - apply compareAsText_Ok in Hr as (_ & _ & c & s & Hc & Hr).
    rewrite Hr in Hs. rewrite !elem_of_cons, elem_of_nil in Hc.
    destruct Hc as [->|[->|[]]]; discriminate.
  - apply compareAsJSON_Ok in Hr as (-> & v1 & v2 & _ & _ & Hr).
    split; [done|]. destruct (KeysOnly opts); [|done].
    rewrite Hr in Hs.
    destruct (summarizeKeyDifferences_cases (extractKeys v1) (extractKeys v2))
      as [[_ Hk]|[_ [s Hk]]]; rewrite Hk in Hs; discriminate.
Qed.

Lemma deepEqual_refl (x : JSON) b : Marshal x = Ok b → deepEqual x x = true.
Proof. intros H. apply deepEqual_spec. eauto. Qed.

(** X6: a response compared with itself is reported as unchanged: "No
    structural changes (keys match)" in keys-only mode and, in full mode,
    "No top-level changes", provided the values directly below the top of
    the document can be serialized again (a value that cannot counts as
    changed). *)
Theorem compare_with_itself data name1 name2 opts v patch :
  Unmarshal data = Ok v →
  jsondiff_Compare (if KeysOnly opts then extractKeys v else v)
                   (if KeysOnly opts then extractKeys v else v) = Ok patch →
  (KeysOnly opts = false → Forall (λ x, ∃ b, Marshal x = Ok b) (children v)) →
  ∃ r, CompareWithOptions data data name1 name2 opts = Ok r ∧
       Summary r = if KeysOnly opts then "No structural changes (keys match)"
                   else "No top-level changes".
Proof.
  intros Hv Hp Hm.
  destruct (CompareWithOptions_json data data name1 name2 opts v v patch Hv Hv Hp)
    as (r & Hr & _ & Hs).
  exists r. split; [done|]. rewrite Hs. destruct (KeysOnly opts).
  - rewrite summarizeKeyDifferences_keyReport. by rewrite decide_True.
  - specialize (Hm eq_refl). rewrite Forall_forall in Hm.
    destruct v as [| b | f | s | l | m];
      try (cbn [summarizeDifferences]; by rewrite decide_True).
    + apply summarizeDifferences_array_iff. split; [done|].
      intros i x1 x2 H1 H2. simplify_eq.
      destruct (Hm x1) as [b Hb]; [by eapply list_elem_of_lookup_2|].
      by eapply deepEqual_refl.
    + apply summarizeDifferences_object_iff. split; [done|].
      intros k x1 x2 H1 H2. simplify_eq.
      destruct (Hm x1) as [b Hb]; [|by eapply deepEqual_refl].
      simpl. apply list_elem_of_fmap. exists (k, x1). split; [done|].
      by apply elem_of_map_to_list.
Qed.

End comparator_extras.

(** ** More on the executor and the coordinator *)

Section engine_more.
Import comparator config executor core spec.
Context `{codec : !JSONCodec, difflib : !DiffLib, patchlib : !PatchLib}.
Context `{sys : !Sys, env : !Env}.

Lemma String_app_assoc (a b c : string) : (a +:+ b) +:+ c = a +:+ b +:+ c.
Proof.
  induction a as [|x a IH]; [done|].
  change (String x ((a +:+ b) +:+ c) = String x (a +:+ b +:+ c)). by rewrite IH.
Qed.

Lemma joinStrings_loop (rest : list string) (sep prefix first : string) :
  foldl (λ result s, result +:+ sep +:+ s) (prefix +:+ first) rest =
  prefix +:+ Join (first :: rest) sep.
Proof.
  revert prefix first. induction rest as [|y rest IH]; intros prefix first; [done|].
  cbn [foldl]. rewrite <- (String_app_assoc (prefix +:+ first) sep y).
  rewrite IH. change (Join (first :: y :: rest) sep)
    with (first +:+ sep +:+ Join (y :: rest) sep).
  by rewrite !String_app_assoc.
Qed.

Lemma joinStrings_eq (strs : list string) (sep : string) :
  joinStrings strs sep = Join strs sep.
Proof.
  destruct strs as [|first rest]; [done|].
  apply (joinStrings_loop rest sep "" first).
Qed.

Lemma String_length_ne_empty (b : string) : String.length b ≠ 0 → b ≠ "".
Proof. by destruct b. Qed.

(** What [compareFiles] returns with a nil error. *)
Lemma compareFiles_Ok tcIdx file1 file2 v1 v2 keysOnly diff old new :
  compareFiles tcIdx file1 file2 v1 v2 keysOnly = Ok (diff, old, new) →
  ReadFile tcIdx file1 = Ok old ∧ ReadFile tcIdx file2 = Ok new ∧
  old ≠ "" ∧ new ≠ "" ∧
  CompareWithOptions old new file1 file2 {| comparator.KeysOnly := keysOnly |}
    = Ok diff.
Proof.
  unfold compareFiles.
  destruct (ReadFile tcIdx file1) as [b1|e1]; [|discriminate].
  destruct (ReadFile tcIdx file2) as [b2|e2]; [|discriminate].
  case_decide as H1; [discriminate|]. case_decide as H2; [discriminate|].
  destruct (CompareWithOptions _ _ _ _ _) as [r|e] eqn:Hc; [|discriminate].
  intros [= <- <- <-]. repeat split; auto using String_length_ne_empty.
Qed.

(** The two shapes of a pairwise entry. *)
Lemma comparePair_shape keysOnly tcIdx results vBase vTarget :
  let d := comparePair keysOnly tcIdx results vBase vTarget in
  match DiffResult d with
  | Some _ => VersionDiff_Error d = "" ∧ OldContent d ≠ "" ∧ NewContent d ≠ ""
  | None => VersionDiff_Error d ≠ "" ∧ OldContent d = "" ∧ NewContent d = ""
  end.
Proof.
  cbn zeta. unfold comparePair.
  destruct (results !! vBase) as [file1|], (results !! vTarget) as [file2|]; cbn;
    try (split; [by apply String_app_ne_empty|done]).
  destruct (compareFiles _ _ _ _ _ _) as [[[diff old] new]|e] eqn:Hc; cbn.
  - apply compareFiles_Ok in Hc as (_ & _ & ? & ? & _). done.
  - split; [by eapply compareFiles_Err|done].
Qed.

Lemma elem_of_runTestCase_Diffs s cfg versions timeout tcIdx testCase d :
  d ∈ Diffs (runTestCase s cfg versions timeout tcIdx testCase) →
  ∃ results vBase vTarget,
    d = comparePair (KeysOnly cfg) tcIdx results vBase vTarget.
Proof.
  unfold runTestCase. cbn [Diffs]. case_decide; [|by intros ?%elem_of_nil].
  intros (i & -> & _)%list_elem_of_fmap. eauto.
Qed.

(** Every entry of a report is the report of a started scenario or a
    zero-valued entry. *)
Lemma elem_of_CommandResults (s : Schedule) (cfg : Config) (r : CommandResult) :
  r ∈ CommandResults (RunWithContext s cfg).1 →
  r = zeroCommandResult ∨
  ∃ i tc, GetTestCases cfg !! i = Some tc ∧
    i < completed 0 (length (GetTestCases cfg)) ∧
    r = runTestCase s cfg (sortedVersions s cfg) (GetTimeout cfg) i tc.
Proof.
  destruct (RunWithContext_spec s cfg) as (-> & _).
  intros [Hr|Hr]%elem_of_app.
  - right. apply list_elem_of_lookup in Hr as [i Hi].
    rewrite list_lookup_imap in Hi.
    destruct (take _ _ !! i) as [tc|] eqn:Htc; [|done].
    injection Hi as <-. apply lookup_take_Some in Htc as [Htc Hlt]. eauto.
  - left. by apply elem_of_replicate in Hr as [-> _].
Qed.

Lemma Forall_CommandResults (s : Schedule) (cfg : Config)
    (P : CommandResult → Prop) :
  P zeroCommandResult →
  (∀ i tc, GetTestCases cfg !! i = Some tc →
     i < completed 0 (length (GetTestCases cfg)) →
     P (runTestCase s cfg (sortedVersions s cfg) (GetTimeout cfg) i tc)) →
  Forall P (CommandResults (RunWithContext s cfg).1).
Proof.
  intros Hzero Hrun. apply Forall_forall. intros r Hr.
  apply elem_of_CommandResults in Hr as [->|(i & tc & Htc & Hi & ->)]; auto.
Qed.

Lemma Diffs_shape (s : Schedule) (cfg : Config) :
  Forall (λ r, Forall (λ d,
    match DiffResult d with
    | Some _ => VersionDiff_Error d = "" ∧ OldContent d ≠ "" ∧ NewContent d ≠ ""
    | None => VersionDiff_Error d ≠ "" ∧ OldContent d = "" ∧ NewContent d = ""
    end) (Diffs r)) (CommandResults (RunWithContext s cfg).1).
Proof.
  apply Forall_CommandResults; [constructor|].
  intros i tc _ _. apply Forall_forall. intros d Hd.
  apply elem_of_runTestCase_Diffs in Hd as (results & a & b & ->).
  apply comparePair_shape.
Qed.

(** What [Execute] returns. *)
Lemma Execute_shape (call : nat) (commandTmpl version baseURL : string)
    (timeout : Z) :
  let out := Execute call commandTmpl version baseURL timeout in
  (out.2 = None ↔ Error out.1 = "") ∧
  (out.2 ≠ None → Response out.1 = "") ∧
  (TimedOut out.1 = true → out.2 = Some (ctxError_Error DeadlineExceeded)) ∧
  Version out.1 = version ∧
  Command out.1 =
    ReplaceAll (normalizeCommand commandTmpl) "{{BASE_URL}}" baseURL.
Proof.
  cbn zeta. unfold Execute.
  destruct (shellwords_Parse _) as [[|cmdName cmdArgs]|e]; cbn;
    try (repeat split; done).
  case_decide; cbn; [repeat split; done|].
  destruct (runErr _) as [e|]; cbn; [|repeat split; done].
  destruct (decide (TrimSpace _ ≠ "")); repeat split; done.
Qed.

(** The outcome a task records. *)
Lemma task_shape (tcIdx : nat) (timeout : Z) (v url cmdRaw : string) :
  let outcome := execInfo (task tcIdx timeout v url cmdRaw) in
  ExecInfo_File outcome ≠ "" →
  ExecInfo_Error outcome = "" ∧ ExecInfo_TimedOut outcome = false.
Proof.
  cbn zeta.
  destruct (Execute_shape tcIdx cmdRaw v url timeout) as (_ & _ & Ht & _).
  unfold task. destruct (Execute _ _ _ _ _) as [res [e|]]; cbn in *; [done|].
  destruct (SaveResponse _ _ _ _ _); cbn; [|done].
  intros _. split; [done|]. destruct (TimedOut res); [|done].
  by specialize (Ht eq_refl).
Qed.

End engine_more.

Section engine_extras.
Import comparator config executor executor_defaults core spec cli.
Context `{codec : !JSONCodec, difflib : !DiffLib, patchlib : !PatchLib}.
Context `{sys : !Sys, env : !Env}.

(** X7: the engine's own [joinStrings] computes what [strings.Join]
    computes, for every list and separator. *)
Theorem joinStrings_Join (strs : list string) (sep : string) :
  joinStrings strs sep = Join strs sep.
Proof.
  destruct strs as [|first rest]; [done|].
  apply (joinStrings_loop rest sep "" first).
Qed.

(** X8: in the report of a run, whatever the schedule and the
    cancellation, every pairwise entry has one of two shapes: a
    [DiffResult] with an empty error and the two non-empty contents that
    were compared, or no [DiffResult], a non-empty error and no content. *)
Theorem report_diff_entries (s : Schedule) (cfg : Config) :
  Forall (λ r, Forall (λ d,
    match DiffResult d with
    | Some _ => VersionDiff_Error d = "" ∧ OldContent d ≠ "" ∧ NewContent d ≠ ""
    | None => VersionDiff_Error d ≠ "" ∧ OldContent d = "" ∧ NewContent d = ""
    end) (Diffs r)) (CommandResults (RunWithContext s cfg).1).
Proof. apply Diffs_shape. Qed.

Lemma printDiff_is_Some (d : VersionDiff) :
  (DiffResult d = None → VersionDiff_Error d ≠ "") → is_Some (printDiff d).
Proof.
  intros Hd. unfold printDiff. case_decide as He; [eauto|].
  destruct (DiffResult d) as [r|]; [|by destruct (Hd eq_refl)].
  case_decide; eauto.
Qed.

Lemma printLoop_is_Some (ds : list VersionDiff) (out : option string) :
  Forall (λ d, is_Some (printDiff d)) ds → is_Some out →
  is_Some (foldl (λ out diff,
             printed ← out; text ← printDiff diff; Some (printed +:+ text))
           out ds).
Proof.
  intros Hds. revert out. induction Hds as [|d ds [text Hd] _ IH]; [done|].
  intros out [printed ->]. cbn [foldl]. apply IH. rewrite Hd. cbn. eauto.
Qed.

(** X9: [printResults] never dereferences a nil [DiffResult] on the
    report of a run: it runs to its end, whatever the schedule and the
    cancellation. *)
Theorem printResults_total (s : Schedule) (cfg : Config) :
  is_Some (printResults (RunWithContext s cfg).1).
Proof.
  unfold printResults. pose proof (Diffs_shape s cfg) as Hshape.
  revert Hshape. generalize (CommandResults (RunWithContext s cfg).1).
  intros rs Hrs. assert (is_Some (Some "")) as Hout by eauto.
  revert Hout. generalize (Some ""). induction Hrs as [|r rs Hr _ IH]; [done|].
  intros out Hout. cbn [foldl]. apply IH, printLoop_is_Some; [|done].
  eapply Forall_impl; [exact Hr|]. intros d Hd. apply printDiff_is_Some.
  intros Hnone. cbn beta in Hd. rewrite Hnone in Hd. tauto.
Qed.

(** X10: in the report of a run, an outcome that names a response file
    carries no error and is not flagged as timed out. *)
Theorem outcome_file_excludes_error (s : Schedule) (cfg : Config) :
  fair s →
  Forall (λ r, Forall (λ e,
    ExecInfo_File e ≠ "" → ExecInfo_Error e = "" ∧ ExecInfo_TimedOut e = false)
    (CommandResult_ExecInfo r)) (CommandResults (RunWithContext s cfg).1).
Proof.
  intros Hs. destruct (sortedVersions_spec s cfg Hs) as (_ & Hnd & Hsorted & _).
  apply Forall_CommandResults; [constructor|].
  intros i tc _ _. rewrite runTestCase_ExecInfo by done.
  apply Forall_forall. intros e (r & -> & Hr)%list_elem_of_fmap.
  apply elem_of_launch_task in Hr as (v & cmd & _ & _ & ->).
  apply task_shape.
Qed.

(** X11: every started scenario's entry repeats the name and the command
    map of its test case, so that a run that is never cancelled lists the
    test cases by name in their order; the legacy single-command field of
    an entry is never filled, for a legacy configuration either. *)
Theorem report_echoes_test_cases (s : Schedule) (cfg : Config) :
  let out := RunWithContext s cfg in
  let testCases := GetTestCases cfg in
  Forall (λ r, CommandResult_Command r = "") (CommandResults out.1) ∧
  (∀ i tc, testCases !! i = Some tc → i < completed 0 (length testCases) →
     ∃ r, CommandResults out.1 !! i = Some r ∧
       TestCaseName r = TestCase_Name tc ∧
       CommandResult_Commands r = TestCase_Commands tc) ∧
  ((∀ i, i < length testCases → ctxDone i = None) →
   TestCaseName <$> CommandResults out.1 = TestCase_Name <$> testCases).
Proof.
  intros out testCases. split; [|split].
  - by apply Forall_CommandResults.
  - intros i tc Htc Hi. eexists. split; [by apply RunWithContext_lookup|done].
  - intros Hlive. destruct (RunWithContext_spec s cfg) as (Hres & _).
    fold out testCases in Hres. rewrite Hres.
    rewrite (completed_all 0 (length testCases)) by done.
    rewrite Nat.sub_diag, firstn_all. cbn [replicate]. rewrite app_nil_r.
    apply list_eq. intros i. rewrite !list_lookup_fmap, list_lookup_imap.
    by destruct (testCases !! i).
Qed.

Lemma results_without_command cfg versions timeout tcIdx testCase v :
  NoDup versions →
  TestCase_Commands testCase !! v = None →
  collect (launch cfg versions timeout tcIdx testCase) !! v = None.
Proof.
  intros Hnd Hv. apply eq_None_not_Some. intros [p Hp].
  apply collect_lookup in Hp as (r & Hr & <- & _); [|by apply launch_NoDup].
  apply elem_of_launch in Hr as (_ & _ & _ & [cmd Hcmd]). congruence.
Qed.

(** X12: when a scenario has no command for a configured version, the
    scenario is run without it: it records no outcome for that version,
    and every pairwise entry that has the version on either side carries
    no [DiffResult] and the error "failed to get responses for
    version(s): ..." naming the version among the missing ones. *)
Theorem version_without_command (s : Schedule) (cfg : Config) (i : nat)
    (tc : TestCase) (v : string) :
  fair s →
  GetTestCases cfg !! i = Some tc →
  i < completed 0 (length (GetTestCases cfg)) →
  TestCase_Commands tc !! v = None →
  ∃ r, CommandResults (RunWithContext s cfg).1 !! i = Some r ∧
    Forall (λ e, ExecInfo_Version e ≠ v) (CommandResult_ExecInfo r) ∧
    Forall (λ d, VersionA d = v ∨ VersionB d = v →
      DiffResult d = None ∧
      ∃ missing, v ∈ missing ∧
        VersionDiff_Error d =
          "failed to get responses for version(s): " +:+ Join missing ", ")
      (Diffs r).
Proof.
  intros Hs Htc Hi Hv. eexists. split; [by apply RunWithContext_lookup|].
  destruct (sortedVersions_spec s cfg Hs) as (_ & Hnd & Hsorted & _).
  rewrite runTestCase_ExecInfo, runTestCase_Diffs by done.
  set (versions := sortedVersions s cfg).
  pose proof (results_without_command cfg versions (GetTimeout cfg) i tc v Hnd Hv)
    as Hnone.
  split.
  - apply Forall_forall. intros e He Hve.
    assert (v ∈ ExecInfo_Version <$>
                  (execInfo <$> launch cfg versions (GetTimeout cfg) i tc)) as Hin.
    { rewrite <- Hve. by apply list_elem_of_fmap_2. }
    destruct (launch_versions cfg versions (GetTimeout cfg) i tc) as [_ Hl].
    rewrite Hl in Hin. apply list_elem_of_filter in Hin as [[cmd Hcmd] _].
    congruence.
  - apply Forall_fmap, Forall_forall. intros [a b] _. cbn [fst snd compose].
    destruct (comparePair_labels (KeysOnly cfg) i
      (collect (launch cfg versions (GetTimeout cfg) i tc)) a b) as [-> ->].
    unfold comparePair. rewrite !joinStrings_eq.
    intros [-> | ->]; rewrite Hnone.
    + destruct (collect _ !! b); cbn; (split; [done|]).
      * exists [v]. split; [left|done].
      * exists [v; b]. split; [left|done].
    + destruct (collect _ !! a); cbn; (split; [done|]).
      * exists [v]. split; [left|done].
      * exists [a; v]. split; [right; left|done].
Qed.

(** X13: [Execute] returns a nil error exactly when the result's error
    text is empty; a result returned with an error carries no response; a
    result flagged as timed out is returned with the deadline error; and
    the result always names the version and the command line that was
    built from the template. *)
Theorem Execute_result (call : nat) (commandTmpl version baseURL : string)
    (timeout : Z) :
  let out := Execute call commandTmpl version baseURL timeout in
  (out.2 = None ↔ Error out.1 = "") ∧
  (out.2 ≠ None → Response out.1 = "") ∧
  (TimedOut out.1 = true → out.2 = Some "context deadline exceeded") ∧
  Version out.1 = version ∧
  Command out.1 =
    ReplaceAll (normalizeCommand commandTmpl) "{{BASE_URL}}" baseURL.
Proof. apply Execute_shape. Qed.

(** X14: a timeout that is not positive, zero or negative, means the
    default of 30 seconds.  [Execute] called with such a duration does what
    [ExecuteWithDefaults] does, and a run of a configuration with such a
    timeout setting is the run of the configuration with the setting 30. *)
Theorem nonpositive_timeout_is_default (s : Schedule) (cfg : Config)
    (seconds : Z) (call : nat) (commandTmpl version baseURL : string)
    (timeout : Z) :
  (timeout ≤ 0)%Z → (seconds ≤ 0)%Z →
  Execute call commandTmpl version baseURL timeout =
    ExecuteWithDefaults call commandTmpl version baseURL ∧
  RunWithContext s {| Versions := Versions cfg; Commands := Commands cfg;
                      TestCases := TestCases cfg; KeysOnly := KeysOnly cfg;
                      Timeout := seconds |} =
  RunWithContext s {| Versions := Versions cfg; Commands := Commands cfg;
                      TestCases := TestCases cfg; KeysOnly := KeysOnly cfg;
                      Timeout := 30 |}.
Proof.
  intros Ht Hs. split.
  - unfold ExecuteWithDefaults, Execute.
    destruct (decide (timeout ≤ 0)%Z); [|lia].
    by destruct (decide (DefaultTimeout ≤ 0)%Z).
  - unfold RunWithContext, sortedVersions, GetTestCases, GetTimeout.
    cbn [Versions TestCases Commands Timeout KeysOnly].
    destruct (decide (seconds ≤ 0)%Z); [|lia].
    destruct (decide (30 ≤ 0)%Z); [lia|].
    change (wrap64 (30 * Second)) with config.DefaultTimeout.
    by apply scenarios_same_fields.
Qed.

Lemma wrap64_small (z : Z) : (- 2 ^ 63 ≤ z < 2 ^ 63)%Z → wrap64 z = z.
Proof. intros Hz. unfold wrap64. rewrite Z.mod_small; lia. Qed.

(** X15: the per-command timeout of a configuration is 30 seconds when the
    setting is zero or negative, and the setting in seconds, a positive
    duration, when the setting is between 1 and 9223372036; from
    9223372037 seconds on the 64-bit product has wrapped around. *)
Theorem GetTimeout_range (cfg : Config) :
  ((Timeout cfg ≤ 0)%Z → GetTimeout cfg = (30 * Second)%Z) ∧
  ((0 < Timeout cfg ≤ 9223372036)%Z →
   GetTimeout cfg = (Timeout cfg * Second)%Z ∧ (0 < GetTimeout cfg)%Z) ∧
  ((Timeout cfg = 9223372037)%Z → (GetTimeout cfg < 0)%Z).
Proof.
  unfold GetTimeout, DefaultTimeout, Second. split; [|split].
  - intros Ht. by rewrite decide_True.
  - intros Ht. rewrite decide_False by lia. rewrite wrap64_small by lia. lia.
  - intros ->. by vm_compute.
Qed.

End engine_extras.

(** ** Validation and loading of configurations *)

Section validation_more.
Import config config_validation.
Context `{lib : !Lib}.

Lemma bind_nil_Forall {X Y : Type} (f : X → list Y) (l : list X) :
  l ≫= f = [] ↔ Forall (λ x, f x = []) l.
Proof.
  induction l as [|x l IH]; [done|].
  rewrite bind_cons, Forall_cons, <- IH. split.
  - by intros ?%app_eq_nil.
  - by intros [-> ->].
Qed.

Lemma join_imap_nil {X Y : Type} (f : nat → X → list Y) (l : list X) :
  mjoin (imap f l) = [] ↔ ∀ i x, l !! i = Some x → f i x = [].
Proof.
  rewrite join_nil, Forall_forall. split.
  - intros H i x Hx. apply H. by apply elem_of_lookup_imap_2.
  - intros H ys (i & x & -> & Hx)%elem_of_lookup_imap_1. eauto.
Qed.

Lemma versionErrors_nil (name baseURL : string) :
  versionErrors (name, baseURL) = [] ↔
  TrimSpace name ≠ "" ∧ TrimSpace baseURL ≠ "" ∧
  ∃ parsedURL, url_Parse baseURL = Ok parsedURL ∧
    Scheme parsedURL ≠ "" ∧ Host parsedURL ≠ "".
Proof.
  unfold versionErrors.
  destruct (decide (TrimSpace name = "")) as [Hn|Hn].
  { split; [done|]. by intros [? _]. }
  destruct (decide (TrimSpace baseURL = "")) as [Hu|Hu].
  { split; [done|]. by intros (_ & ? & _). }
  destruct (url_Parse baseURL) as [u|e].
  - destruct (decide (Scheme u = "")) as [Hs|Hs], (decide (Host u = "")) as [Hh|Hh];
      cbn; (split; [try done; eauto 6|]);
      try (intros (_ & _ & u' & [= <-] & ? & ?); done).
  - split; [done|]. by intros (_ & _ & u & ? & _).
Qed.

(** The errors of the loop over the versions. *)
Lemma versionPart_nil (c : Config) :
  fairRange →
  (if decide (size (Versions c) = 0)
   then [ {| Field := "versions"; Message := "at least one version is required" |} ]
   else rangeEntries (map_to_list (Versions c)) ≫= versionErrors) = [] ↔
  Versions c ≠ ∅ ∧
  ∀ name baseURL, Versions c !! name = Some baseURL →
    versionErrors (name, baseURL) = [].
Proof.
  intros Hfair. unfold fairRange in Hfair. case_decide as Hsize.
  - apply map_size_empty_iff in Hsize. split; [done|]. by intros [? _].
  - rewrite bind_nil_Forall, Forall_forall. split.
    + intros H. split; [by rewrite <- map_size_empty_iff|].
      intros name baseURL Hn. apply H. rewrite Hfair.
      by apply elem_of_map_to_list.
    + intros [_ H] [name baseURL] Hin. rewrite Hfair in Hin.
      apply elem_of_map_to_list in Hin. auto.
Qed.

Lemma testCaseResult_nil (i : nat) (tc : TestCase) :
  fairRange →
  (testCaseResult i tc).1 = [] ↔
  TrimSpace (TestCase_Name tc) ≠ "" ∧ TestCase_Commands tc ≠ ∅ ∧
  ∀ v cmd, TestCase_Commands tc !! v = Some cmd → TrimSpace cmd ≠ "".
Proof.
  intros Hfair. unfold fairRange in Hfair. unfold testCaseResult.
  destruct (decide (size (TestCase_Commands tc) = 0)) as [Hsize|Hsize]; cbn [fst].
  { apply map_size_empty_iff in Hsize. split.
    - by intros [_ ?]%app_eq_nil.
    - by intros (_ & ? & _). }
  rewrite <- map_size_empty_iff.
  destruct (decide (TrimSpace (TestCase_Name tc) = "")) as [Hn|Hn].
  { split; [done|]. by intros [? _]. }
  cbn [app]. rewrite bind_nil_Forall, Forall_forall. split.
  - intros H. split; [done|]. split; [done|]. intros v cmd Hv.
    specialize (H (v, cmd)). cbn [fst snd] in H.
    destruct (decide (TrimSpace cmd = "")); [|done].
    discriminate H. rewrite Hfair. by apply elem_of_map_to_list.
  - intros (_ & _ & H) [v cmd] Hin. rewrite Hfair in Hin.
    apply elem_of_map_to_list in Hin. cbn [fst snd].
    by rewrite decide_False by eauto.
Qed.

Lemma legacyResult_nil (commands : list string) :
  (legacyResult commands).1 = [] ↔
  ∀ cmd, cmd ∈ commands → TrimSpace cmd ≠ "".
Proof.
  unfold legacyResult. cbn [fst]. rewrite join_imap_nil. split.
  - intros H cmd [i Hi]%list_elem_of_lookup. specialize (H i cmd Hi).
    by destruct (decide (TrimSpace cmd = "")).
  - intros H i cmd Hi. rewrite decide_False; [done|].
    apply H. by eapply list_elem_of_lookup_2.
Qed.

(** What it takes for [Validate] to report no error. *)
Lemma Validate_IsValid (c : Config) :
  fairRange →
  IsValid (Validate c) = true ↔
  (Versions c ≠ ∅ ∧
   ∀ name baseURL, Versions c !! name = Some baseURL →
     versionErrors (name, baseURL) = []) ∧
  (if decide (0 < length (TestCases c))
   then ∀ i tc, TestCases c !! i = Some tc → (testCaseResult i tc).1 = []
   else Commands c ≠ [] ∧ ∀ cmd, cmd ∈ Commands c → TrimSpace cmd ≠ "") ∧
  (0 ≤ Timeout c)%Z.
Proof.
  intros Hfair. unfold IsValid, Validate. cbn [Errors].
  rewrite bool_decide_eq_true, length_zero_iff_nil.
  rewrite <- (versionPart_nil c Hfair).
  split.
  - intros (Hv & (Hc & Ht)%app_eq_nil)%app_eq_nil. split; [done|].
    split.
    + destruct (decide (0 < length (TestCases c))); cbn [fst] in Hc.
      * rewrite fmap_imap in Hc. intros i tc Htc.
        by apply (proj1 (join_imap_nil _ _) Hc i tc).
      * destruct (decide (length (Commands c) = 0)) as [Hl|Hl]; [done|].
        split; [by destruct (Commands c)|]. by apply legacyResult_nil.
    + by destruct (decide (Timeout c < 0)%Z); [|lia].
  - intros (Hv & Hc & Ht). rewrite Hv. cbn [app].
    rewrite (decide_False (P := (Timeout c < 0)%Z)) by lia. rewrite app_nil_r.
    destruct (decide (0 < length (TestCases c))); cbn [fst].
    + rewrite fmap_imap. apply join_imap_nil. intros i tc Htc.
      by apply Hc.
    + destruct Hc as [Hne Hc].
      rewrite decide_False by (by destruct (Commands c)).
      by apply legacyResult_nil.
Qed.

Lemma Join_ne_empty (x : string) (rest : list string) (sep : string) :
  x ≠ "" → Join (x :: rest) sep ≠ "".
Proof.
  intros Hx. destruct rest as [|y rest]; [done|]. by destruct x.
Qed.

End validation_more.

Section validation_extras.
Import config config_validation.
Context `{codec : !comparator.JSONCodec, difflib : !comparator.DiffLib,
          patchlib : !comparator.PatchLib}.
Context `{sys : !executor.Sys, env : !core.Env}.
Context `{lib : !Lib}.

(** X16: a configuration that [Validate] accepts can be run as it is: it
    has at least one version, every version has a name and a URL that are
    not blank and the URL parses with a scheme and a host; its normalized
    test cases are not empty, each of them has at least one command and no
    blank command; every test case of the matrix form has a name that is
    not blank; and its timeout is not negative. *)
Theorem valid_configuration (c : Config) :
  fairRange →
  IsValid (Validate c) = true →
  Versions c ≠ ∅ ∧
  (∀ name baseURL, Versions c !! name = Some baseURL →
     TrimSpace name ≠ "" ∧ TrimSpace baseURL ≠ "" ∧
     ∃ parsedURL, url_Parse baseURL = Ok parsedURL ∧
       Scheme parsedURL ≠ "" ∧ Host parsedURL ≠ "") ∧
  GetTestCases c ≠ [] ∧
  Forall (λ tc, TestCase_Commands tc ≠ ∅ ∧
                ∀ v cmd, TestCase_Commands tc !! v = Some cmd →
                         TrimSpace cmd ≠ "") (GetTestCases c) ∧
  Forall (λ tc, TrimSpace (TestCase_Name tc) ≠ "") (TestCases c) ∧
  (0 ≤ Timeout c)%Z.
Proof.
  intros Hfair Hvalid.
  apply (Validate_IsValid c Hfair) in Hvalid as ((Hne & Hv) & Hc & Ht).
  split; [done|]. split.
  { intros name baseURL Hn. by apply versionErrors_nil, Hv. }
  unfold GetTestCases.
  destruct (decide (0 < length (TestCases c))) as [Hlen|Hlen].
  - assert (∀ tc, tc ∈ TestCases c →
      TrimSpace (TestCase_Name tc) ≠ "" ∧ TestCase_Commands tc ≠ ∅ ∧
      ∀ v cmd, TestCase_Commands tc !! v = Some cmd → TrimSpace cmd ≠ "") as Htc.
    { intros tc [i Hi]%list_elem_of_lookup.
      by apply (testCaseResult_nil i tc Hfair), Hc. }
    split; [by destruct (TestCases c); [simpl in Hlen; lia|]|].
    split; [|split; [|done]]; apply Forall_forall; intros tc Hin;
      by destruct (Htc tc Hin) as (? & ? & ?).
  - destruct Hc as [Hcmds Hc].
    split; [by destruct (Commands c)|].
    split; [|split; [|done]].
    + apply Forall_forall. intros tc (i & cmd & -> & Hi)%elem_of_lookup_imap_1.
      cbn [TestCase_Commands]. rewrite sharedCommands_fmap. split.
      * by rewrite fmap_empty_iff.
      * intros v cmd' Hl. rewrite lookup_fmap in Hl.
        destruct (Versions c !! v); [|done]. injection Hl as <-.
        apply Hc. by eapply list_elem_of_lookup_2.
    + destruct (TestCases c); [constructor|simpl in Hlen; lia].
Qed.

(** X17: when test cases are given, the legacy commands are ignored by
    validation, by normalization and by the run: replacing them by any
    other list changes none of the three. *)
Theorem commands_ignored (c : Config) (commands : list string)
    (s : core.Schedule) :
  TestCases c ≠ [] →
  let c' := {| Versions := Versions c; Commands := commands;
               TestCases := TestCases c; KeysOnly := KeysOnly c;
               Timeout := Timeout c |} in
  Validate c' = Validate c ∧
  GetTestCases c' = GetTestCases c ∧
  core.RunWithContext s c' = core.RunWithContext s c.
Proof.
  intros Hne c'.
  assert (0 < length (TestCases c)) as Hlen.
  { destruct (TestCases c); [done|simpl; lia]. }
  assert (GetTestCases c' = GetTestCases c) as Hg.
  { unfold GetTestCases. cbn [TestCases c']. by rewrite !decide_True. }
  split; [|split; [done|]].
  - unfold Validate. subst c'. cbn [Versions TestCases Timeout Commands].
    by destruct (decide (0 < length (TestCases c))).
  - unfold core.RunWithContext. rewrite Hg. by apply scenarios_same_fields.
Qed.

(** X18: the combined message of a validation result is empty exactly
    when the result is valid; otherwise it starts with the field of the
    first error. *)
Theorem ValidationResult_Error_empty (v : ValidationResult) :
  (ValidationResult_Error v = "" ↔ IsValid v = true) ∧
  (∀ e rest, Errors v = e :: rest →
     ∃ tail, ValidationResult_Error v = Field e +:+ ": " +:+ tail).
Proof.
  unfold ValidationResult_Error, IsValid. split.
  - rewrite bool_decide_eq_true. case_decide as Hlen; [done|].
    split; [|done]. destruct (Errors v) as [|e rest]; [done|].
    rewrite fmap_cons. intros H. apply Join_ne_empty in H; [done|].
    unfold ValidationError_Error. by destruct (Field e).
  - intros e rest ->. cbn [length]. rewrite decide_False by lia.
    rewrite fmap_cons. unfold ValidationError_Error at 1.
    destruct (ValidationError_Error <$> rest) as [|y ys]; [by eexists|].
    exists (Message e +:+ "; " +:+ Join (y :: ys) "; ").
    change (Join ((Field e +:+ ": " +:+ Message e) :: y :: ys) "; ")
      with ((Field e +:+ ": " +:+ Message e) +:+ "; " +:+ Join (y :: ys) "; ").
    by rewrite !String_app_assoc.
Qed.

(** X19: [LoadFromJSON] returns a configuration exactly when the data
    decode to it and it passes validation, and [Load] is [LoadFromJSON] on
    the content of the file; neither returns a configuration that
    validation rejects. *)
Theorem Load_returns_valid (path data : string) (cfg : Config) :
  (LoadFromJSON data = Ok cfg ↔
   decodeConfig data = Ok cfg ∧ IsValid (Validate cfg) = true) ∧
  (Load path = Ok cfg ↔
   ∃ content, ReadFile path = Ok content ∧ LoadFromJSON content = Ok cfg).
Proof.
  unfold Load, LoadFromJSON. split.
  - destruct (decodeConfig data) as [c|e]; [|split; [done|by intros [? _]]].
    destruct (IsValid (Validate c)) eqn:Hv.
    + split; [by intros [= <-]|]. by intros [[= <-] _].
    + split; [done|]. intros [[= <-] ?]. congruence.
  - destruct (ReadFile path) as [content|e].
    + split; [eauto|]. by intros (content' & [= <-] & ?).
    + split; [done|]. by intros (? & ? & _).
Qed.

End validation_extras.

(** ** The response store *)

Section sanitize.
Import storage invariants.

Lemma plain_underscore : plain underscore.
Proof. by split. Qed.

Lemma singleUnderscores_nil : singleUnderscores [].
Proof. intros i [H _]. by rewrite lookup_nil in H. Qed.

Lemma singleUnderscores_cons (c : ascii) (s : list ascii) :
  singleUnderscores (c :: s) ↔
  ¬ (c = underscore ∧ head s = Some underscore) ∧ singleUnderscores s.
Proof.
  unfold singleUnderscores. split.
  - intros H. split.
    + intros [-> Hs]. apply (H 0). split; [done|]. by destruct s.
    + intros i. apply (H (S i)).
  - intros [Hc Hs] [|i]; [|apply Hs].
    intros [[= ->] H1]. apply Hc. split; [done|]. by destruct s.
Qed.

Lemma singleUnderscores_prefix (s t : list ascii) :
  s `prefix_of` t → singleUnderscores t → singleUnderscores s.
Proof.
  intros [k ->] H i [H1 H2]. apply (H i).
  split; by apply lookup_app_l_Some.
Qed.

Lemma singleUnderscores_suffix (s t : list ascii) :
  s `suffix_of` t → singleUnderscores t → singleUnderscores s.
Proof.
  intros [k ->] H i [H1 H2]. apply (H (length k + i)).
  replace (S (length k + i)) with (length k + S i) by lia.
  by rewrite !lookup_app_r, !Nat.add_sub' by lia.
Qed.

Lemma replaceRuns_Forall (P : ascii → Prop) (class : ascii → bool)
    (inRun : bool) (s : list ascii) :
  P underscore → Forall P s → Forall P (replaceRuns class inRun s).
Proof.
  intros Hu Hs. revert inRun. induction Hs as [|c s Hc _ IH]; intros inRun;
    [constructor|].
  cbn [replaceRuns]. destruct (class c), inRun; auto.
Qed.

Lemma replaceRuns_class (class : ascii → bool) (inRun : bool) (s : list ascii) :
  class underscore = false →
  Forall (λ c, class c = false) (replaceRuns class inRun s).
Proof.
  intros Hu. revert inRun. induction s as [|c s IH]; intros inRun; [constructor|].
  cbn [replaceRuns]. destruct (class c) eqn:Hc, inRun; auto.
Qed.

Lemma replaceRuns_single (inRun : bool) (s : list ascii) :
  singleUnderscores (replaceRuns isUnderscore inRun s) ∧
  (inRun = true → head (replaceRuns isUnderscore inRun s) ≠ Some underscore).
Proof.
  revert inRun. induction s as [|c s IH]; intros inRun.
  { split; [apply singleUnderscores_nil|done]. }
  cbn [replaceRuns]. destruct (isUnderscore c) eqn:Hc.
  - destruct inRun; [apply IH|]. split; [|done].
    apply singleUnderscores_cons. split; [|apply IH].
    intros [_ H]. by apply (proj2 (IH true)).
  - apply bool_decide_eq_false in Hc. split.
    + apply singleUnderscores_cons. split; [by intros [? _]|apply IH].
    + intros _ [= ->]. done.
Qed.

(** Runs of length one are left as they are. *)
Lemma replaceRuns_id (class : ascii → bool) (s : list ascii) :
  Forall (λ c, class c = false) s → replaceRuns class false s = s.
Proof.
  induction 1 as [|c s Hc _ IH]; [done|]. cbn [replaceRuns]. by rewrite Hc, IH.
Qed.

Lemma replaceRuns_single_id (inRun : bool) (s : list ascii) :
  singleUnderscores s →
  (inRun = true → head s ≠ Some underscore) →
  replaceRuns isUnderscore inRun s = s.
Proof.
  revert inRun. induction s as [|c s IH]; intros inRun Hs Hh; [done|].
  apply singleUnderscores_cons in Hs as [Hc Hs]. cbn [replaceRuns].
  destruct (isUnderscore c) eqn:Hu.
  - apply bool_decide_eq_true in Hu. subst c.
    destruct inRun; [by destruct Hh|].
    f_equal. apply IH; [done|]. intros _ H. by apply Hc.
  - f_equal. by apply IH.
Qed.

Lemma trimLeading_suffix (s : list ascii) :
  trimLeading s `suffix_of` s ∧ head (trimLeading s) ≠ Some underscore.
Proof.
  induction s as [|c s [IH1 IH2]]; [done|]. cbn [trimLeading].
  destruct (isUnderscore c) eqn:Hc.
  - split; [by apply suffix_cons_r|done].
  - apply bool_decide_eq_false in Hc. split; [done|]. by intros [= ->].
Qed.

Lemma trimLeading_id (s : list ascii) :
  head s ≠ Some underscore → trimLeading s = s.
Proof.
  destruct s as [|c s]; [done|]. intros Hh. cbn [trimLeading].
  destruct (isUnderscore c) eqn:Hc; [|done].
  apply bool_decide_eq_true in Hc. by subst c.
Qed.

Lemma trimTrailing_prefix (s : list ascii) :
  trimTrailing s `prefix_of` s ∧ last (trimTrailing s) ≠ Some underscore.
Proof.
  induction s as [|c s [IH1 IH2]]; [done|]. cbn [trimTrailing].
  destruct (trimTrailing s) as [|k kept] eqn:Hk.
  - destruct (isUnderscore c) eqn:Hc.
    + split; [apply prefix_nil|done].
    + apply bool_decide_eq_false in Hc.
      split; [apply prefix_cons, prefix_nil|]. by intros [= ->].
  - split; [by apply prefix_cons|]. by rewrite last_cons_cons.
Qed.

Lemma trimTrailing_id (s : list ascii) :
  last s ≠ Some underscore → trimTrailing s = s.
Proof.
  induction s as [|c s IH]; [done|]. intros Hl. cbn [trimTrailing].
  destruct s as [|d s].
  - cbn. destruct (isUnderscore c) eqn:Hc; [|done].
    apply bool_decide_eq_true in Hc. by subst c.
  - rewrite last_cons_cons in Hl. by rewrite (IH Hl).
Qed.

Lemma head_prefix (s t : list ascii) (c : ascii) :
  s `prefix_of` t → s ≠ [] → head t ≠ Some c → head s ≠ Some c.
Proof. intros [k ->] Hne. by destruct s. Qed.

(** The name before its length is limited. *)
Lemma trimmed_spec (s : list ascii) :
  Forall plain s → singleUnderscores s →
  let trimmed := trimTrailing (trimLeading s) in
  Forall plain trimmed ∧ singleUnderscores trimmed ∧
  head trimmed ≠ Some underscore ∧ last trimmed ≠ Some underscore.
Proof.
  intros Hp Hs trimmed.
  destruct (trimLeading_suffix s) as [Hsuf Hhead].
  destruct (trimTrailing_prefix (trimLeading s)) as [Hpre Hlast].
  fold trimmed in Hpre, Hlast.
  assert (Forall plain (trimLeading s)) as Hp'.
  { destruct Hsuf as [k Hk]. rewrite Hk in Hp. by apply Forall_app in Hp as [_ ?]. }
  split; [|split; [|split]]; [| | |done].
  - destruct Hpre as [k Hk]. rewrite Hk in Hp'. by apply Forall_app in Hp' as [? _].
  - eapply singleUnderscores_prefix; [done|].
    by eapply singleUnderscores_suffix.
  - destruct trimmed eqn:Ht; [done|]. eapply head_prefix; [exact Hpre|done|done].
Qed.

Lemma sanitized_runs (name : list ascii) :
  let sanitized :=
    replaceRuns isUnderscore false
      (replaceRuns whitespace false
         ((λ c, if problematic c then underscore else c) <$> name)) in
  Forall plain sanitized ∧ singleUnderscores sanitized.
Proof.
  cbn zeta. split; [|apply replaceRuns_single].
  apply replaceRuns_Forall; [apply plain_underscore|].
  apply Forall_and. split.
  - apply replaceRuns_Forall; [done|]. apply Forall_fmap, Forall_forall.
    intros c _. cbn. by destruct (problematic c) eqn:Hc.
  - by apply replaceRuns_class.
Qed.

End sanitize.

Section storage_extras.
Import storage invariants.
Context `{os : !OS}.

(** X20: whatever the version label, the file-name part made of it is not
    empty, has at most 50 bytes, holds none of the characters that are
    replaced and no white space, has no two underscores side by side, does
    not start with an underscore, and ends with one only where the name was
    cut at 50 bytes. *)
Theorem sanitizeFilename_safe (name : string) :
  let out := String.list_ascii_of_string (sanitizeFilename name) in
  0 < length out ≤ 50 ∧
  Forall plain out ∧
  singleUnderscores out ∧
  head out ≠ Some underscore ∧
  (last out = Some underscore → length out = 50).
Proof.
  cbn zeta. unfold sanitizeFilename.
  rewrite String.list_ascii_of_string_of_list_ascii. unfold sanitizeBytes.
  destruct (sanitized_runs (String.list_ascii_of_string name)) as [Hp Hs].
  cbn zeta in Hp, Hs.
  destruct (trimmed_spec _ Hp Hs) as (Hp' & Hs' & Hh & Hl). cbn zeta in *.
  set (trimmed := trimTrailing (trimLeading _)) in *.
  set (named := match trimmed with
                | [] => String.list_ascii_of_string "unnamed"
                | _ => trimmed
                end).
  assert (0 < length named ∧ Forall plain named ∧ singleUnderscores named ∧
          head named ≠ Some underscore ∧ last named ≠ Some underscore)
    as (Hlen & Hpn & Hsn & Hhn & Hln).
  { subst named. destruct trimmed as [|c rest].
    - split; [cbn; lia|]. split; [by repeat constructor|].
      split; [|done]. intros i [H1 H2].
      by do 8 (destruct i as [|i]; [done|]).
    - split; [cbn; lia|]. done. }
  case_decide as Hlong.
  - rewrite length_take. split; [lia|].
    split; [by apply Forall_take|].
    split; [eapply singleUnderscores_prefix; [apply prefix_take|done]|].
    split; [|lia]. by destruct named.
  - split; [lia|]. done.
Qed.

(** X21: a name that is already clean, that is, not empty, of at most 50
    bytes, without replaced characters, white space or doubled underscores
    and without an underscore at either end, is left as it is. *)
Theorem sanitizeFilename_clean (name : string) :
  let bytes := String.list_ascii_of_string name in
  bytes ≠ [] → length bytes ≤ 50 →
  Forall plain bytes → singleUnderscores bytes →
  head bytes ≠ Some underscore → last bytes ≠ Some underscore →
  sanitizeFilename name = name.
Proof.
  cbn zeta. intros Hne Hlen Hp Hs Hh Hl. unfold sanitizeFilename, sanitizeBytes.
  apply Forall_and in Hp as [Hprob Hws].
  assert ((λ c, if problematic c then underscore else c) <$>
            String.list_ascii_of_string name = String.list_ascii_of_string name)
    as ->.
  { etrans; [|apply list_fmap_id]. apply Forall_fmap_ext.
    eapply Forall_impl; [exact Hprob|]. by intros c ->. }
  rewrite (replaceRuns_id whitespace) by done.
  rewrite replaceRuns_single_id by done.
  rewrite trimLeading_id, trimTrailing_id by done.
  destruct (String.list_ascii_of_string name) as [|c rest] eqn:Hb; [done|].
  rewrite decide_False by lia. rewrite <- Hb.
  apply String.string_of_list_ascii_of_string.
Qed.

Lemma appendExecution_None (commands : list CommandEntry) (hash : string)
    (record : ExecutionRecord) :
  appendExecution commands hash record = None ↔
  hash ∉ (CommandHash <$> commands).
Proof.
  induction commands as [|entry rest IH].
  { split; [intros _ ?%elem_of_nil|]; done. }
  cbn [appendExecution]. rewrite fmap_cons, not_elem_of_cons, <- IH.
  case_decide as Hh; [by split; [|intros [? _]]|].
  rewrite fmap_None. split; [done|tauto].
Qed.

(** The loop changes the first entry with the hash, and only it. *)
Lemma appendExecution_Some (commands commands' : list CommandEntry)
    (hash : string) (record : ExecutionRecord) :
  appendExecution commands hash record = Some commands' →
  ∃ before entry after,
    commands = before ++ entry :: after ∧
    (hash ∉ CommandHash <$> before) ∧
    CommandHash entry = hash ∧
    commands' = before ++
      {| CommandHash := hash; CommandRaw := CommandRaw entry;
         Executions := Executions entry ++ [record] |} :: after.
Proof.
  revert commands'. induction commands as [|entry rest IH]; [done|].
  intros commands'. cbn [appendExecution]. case_decide as Hh.
  - intros [= <-]. exists [], entry, rest. rewrite Hh.
    split; [done|]. split; [by intros ?%elem_of_nil|done].
  - destruct (appendExecution rest hash record) as [rest'|]; [|done].
    intros [= <-]. destruct (IH rest' eq_refl) as (b & e & a & -> & Hb & He & ->).
    exists (entry :: b), e, a. split; [done|].
    split; [|done]. rewrite fmap_cons, not_elem_of_cons. done.
Qed.

(** What [updateIndex] does to the index. *)
Lemma updateIndex_spec (index : Index) (command hash : string)
    (record : ExecutionRecord) :
  let index' := updateIndex index command hash record in
  CommandHash <$> Commands index' =
    (if decide (hash ∈ CommandHash <$> Commands index)
     then CommandHash <$> Commands index
     else (CommandHash <$> Commands index) ++ [hash]) ∧
  CommandRaw <$> Commands index' =
    (if decide (hash ∈ CommandHash <$> Commands index)
     then CommandRaw <$> Commands index
     else (CommandRaw <$> Commands index) ++ [command]) ∧
  (∃ before entry after,
     Commands index' = before ++ entry :: after ∧
     (hash ∉ CommandHash <$> before) ∧
     CommandHash entry = hash ∧ last (Executions entry) = Some record) ∧
  filter (λ e, CommandHash e ≠ hash) (Commands index') =
    filter (λ e, CommandHash e ≠ hash) (Commands index) ∧
  length (executions index') = S (length (executions index)).
Proof.
  cbn zeta. unfold updateIndex, executions.
  destruct (appendExecution (Commands index) hash record) as [commands'|] eqn:Ha.
  - apply appendExecution_Some in Ha as (b & e & a & Hc & Hb & He & ->).
    rewrite Hc. cbn [Commands].
    destruct (decide (hash ∈ CommandHash <$> b ++ e :: a)) as [_|Hn].
    2: { destruct Hn. rewrite fmap_app, fmap_cons, elem_of_app, elem_of_cons. auto. }
    rewrite !fmap_app, !fmap_cons. cbn [CommandHash CommandRaw]. rewrite He.
    split; [done|]. split; [done|]. split.
    { eexists b, _, a. split; [done|]. split; [done|]. split; [done|].
      cbn [Executions]. apply last_snoc. }
    rewrite !filter_app, !filter_cons. cbn [CommandHash].
    rewrite He, !decide_False by (by intros H; apply H).
    split; [done|].
    rewrite !bind_app, !bind_cons. cbn [Executions].
    rewrite !length_app. cbn [length]. lia.
  - apply appendExecution_None in Ha. cbn [Commands].
    destruct (decide (hash ∈ CommandHash <$> Commands index)) as [|_]; [done|].
    rewrite !fmap_app. cbn [fmap list_fmap].
    split; [done|]. split; [done|]. split.
    { eexists (Commands index), _, []. split; [done|]. split; [done|]. done. }
    rewrite filter_app, filter_cons. cbn [CommandHash].
    rewrite decide_False by (by intros H; apply H). rewrite filter_nil, app_nil_r.
    split; [done|]. rewrite bind_app, length_app. cbn. lia.
Qed.

(** X22: [updateIndex] files the record under its hash.  The record becomes
    the last execution of the first entry with that hash, or the only
    execution of a new last entry that keeps the command text; the entries
    with another hash, the order of the entries and the command text of an
    existing entry do not change; the index holds one execution more. *)
Theorem updateIndex_files_record (index : Index) (command hash : string)
    (record : ExecutionRecord) :
  let index' := updateIndex index command hash record in
  CommandHash <$> Commands index' =
    (if decide (hash ∈ CommandHash <$> Commands index)
     then CommandHash <$> Commands index
     else (CommandHash <$> Commands index) ++ [hash]) ∧
  CommandRaw <$> Commands index' =
    (if decide (hash ∈ CommandHash <$> Commands index)
     then CommandRaw <$> Commands index
     else (CommandRaw <$> Commands index) ++ [command]) ∧
  (∃ before entry after,
     Commands index' = before ++ entry :: after ∧
     (hash ∉ CommandHash <$> before) ∧
     CommandHash entry = hash ∧ last (Executions entry) = Some record) ∧
  filter (λ e, CommandHash e ≠ hash) (Commands index') =
    filter (λ e, CommandHash e ≠ hash) (Commands index) ∧
  length (executions index') = S (length (executions index)).
Proof. apply updateIndex_spec. Qed.

(** X23: [updateIndex] keeps an index with one entry per hash in that
    state: when no two entries share a hash before, none do after. *)
Theorem updateIndex_NoDup (index : Index) (command hash : string)
    (record : ExecutionRecord) :
  NoDup (CommandHash <$> Commands index) →
  NoDup (CommandHash <$> Commands (updateIndex index command hash record)).
Proof.
  intros Hnd. unfold updateIndex.
  destruct (appendExecution (Commands index) hash record) as [commands'|] eqn:Ha.
  - apply appendExecution_Some in Ha as (b & e & a & Hc & Hb & He & ->).
    rewrite Hc in Hnd. cbn [Commands].
    revert Hnd. rewrite !fmap_app, !fmap_cons. cbn [CommandHash]. by rewrite He.
  - apply appendExecution_None in Ha. cbn [Commands].
    rewrite fmap_app. cbn [fmap list_fmap]. apply NoDup_app.
    split; [done|]. split; [|apply NoDup_singleton].
    intros h Hh ->%list_elem_of_singleton. done.
Qed.

Lemma SaveResponse_finish (call : nat) (s : Store) (command : string)
    (execRecord : ExecutionRecord) :
  let s' := {| BaseDir := BaseDir s;
               Store_Index := updateIndex (Store_Index s) command (hash command)
                                execRecord |} in
  Forall (λ w, w.1 = filepath_Join (BaseDir s) "index.json")
         (saveIndexLocked call s').2.
Proof.
  cbn zeta. unfold saveIndexLocked. cbn [BaseDir Store_Index].
  destruct (MarshalIndentIndex _); [|constructor].
  destruct (WriteFile _ _ _); [constructor|]. by repeat constructor.
Qed.

(** X24: [SaveResponse] either fails, and then leaves the store as it was
    and has written nothing, or returns the path of the response file in
    the base directory and has added exactly one execution to the index.
    It fails only when the directory cannot be made or the response file
    cannot be written; a failure to write the index is not one. *)
Theorem SaveResponse_outcome (call : nat) (s : Store) (command version : string)
    (response : option string) (execErr : option error) :
  let filename :=
    "v" +:+ sanitizeFilename version +:+ "_" +:+
    String.substring 0 8 (hash command) +:+ "_" +:+ Format (Now call) +:+ ".json" in
  let '(result, s', written) :=
    SaveResponse call s command version response execErr in
  match result with
  | Err _ =>
    s' = s ∧ written = [] ∧
    (is_Some (MkdirAll call (BaseDir s)) ∨
     execErr = None ∧ ∃ bytes content, response = Some bytes ∧
       is_Some (WriteFile call (filepath_Join (BaseDir s) filename) content))
  | Ok path =>
    path = filepath_Join (BaseDir s) filename ∧
    path = GetResponsePath s filename ∧
    MkdirAll call (BaseDir s) = None ∧
    BaseDir s' = BaseDir s ∧
    length (executions (Store_Index s')) = S (length (executions (Store_Index s)))
  end.
Proof.
  cbn zeta. unfold SaveResponse, GetResponsePath.
  destruct (MkdirAll call (BaseDir s)) as [e|] eqn:Hmk.
  { split; [done|]. split; [done|]. left. eauto. }
  destruct execErr as [e|]; [|destruct response as [bytes|]].
  - repeat (split; [done|]). cbn [Store_Index].
    apply updateIndex_spec.
  - destruct (WriteFile call _ _) as [e|] eqn:Hw.
    + split; [done|]. split; [done|]. right. split; [done|].
      eexists bytes, _. split; [done|]. rewrite Hw. eauto.
    + repeat (split; [done|]). cbn [Store_Index].
      apply updateIndex_spec.
  - repeat (split; [done|]). cbn [Store_Index].
    apply updateIndex_spec.
Qed.

(** X25: for a failed execution, and for a nil response, [SaveResponse]
    writes no response file, and still returns a path with a nil error when
    the directory can be made: the only file it may write is the index, and
    the execution it records names no response file and has the status
    "error" for a failed execution and "success" otherwise. *)
Theorem SaveResponse_without_file (call : nat) (s : Store)
    (command version : string) (response : option string)
    (execErr : option error) :
  is_Some execErr ∨ response = None →
  MkdirAll call (BaseDir s) = None →
  let out := SaveResponse call s command version response execErr in
  is_Some (match out.1.1 with Ok path => Some path | Err _ => None end) ∧
  Forall (λ w, w.1 = filepath_Join (BaseDir s) "index.json") out.2 ∧
  ∃ before entry after record,
    Commands (Store_Index out.1.2) = before ++ entry :: after ∧
    (hash command ∉ CommandHash <$> before) ∧
    CommandHash entry = hash command ∧
    last (Executions entry) = Some record ∧
    ResponseFile record = "" ∧
    Status record = match execErr with
                    | Some _ => "error"
                    | None => "success"
                    end ∧
    Error record = default "" execErr.
Proof.
  intros Hcase Hmk. cbn zeta. unfold SaveResponse. rewrite Hmk.
  destruct execErr as [e|]; [|destruct response as [bytes|]].
  - cbn [fst snd app]. split; [eauto|]. split; [apply SaveResponse_finish|].
    cbn [Store_Index].
    destruct (updateIndex_spec (Store_Index s) command (hash command)
      {| Version := version; Timestamp := Now call; ResponseFile := "";
         Status := "error"; Error := e |}) as (_ & _ & (b & en & a & ? & ? & ? & ?) & _).
    by eexists b, en, a, _.
  - by destruct Hcase as [[? ?]|?].
  - cbn [fst snd app]. split; [eauto|]. split; [apply SaveResponse_finish|].
    cbn [Store_Index].
    destruct (updateIndex_spec (Store_Index s) command (hash command)
      {| Version := version; Timestamp := Now call; ResponseFile := "";
         Status := "success"; Error := "" |}) as (_ & _ & (b & en & a & ? & ? & ? & ?) & _).
    by eexists b, en, a, _.
Qed.

End storage_extras.

(** ** The deadline of a run started by the server *)

Section server_extras.
Import config server.

(** X26: the deadline the server gives a run lies between one minute and
    the five minutes of its write timeout.  It is computed from the number
    of legacy commands: the test cases of the matrix form do not count, and
    a configuration without legacy commands always gets one minute. *)
Theorem estimatedTime_bounds (cfg : Config) :
  (Minute ≤ estimatedTime cfg ≤ WriteTimeout)%Z ∧
  (Commands cfg = [] → estimatedTime cfg = Minute) ∧
  (∀ testCases,
     estimatedTime {| Versions := Versions cfg; Commands := Commands cfg;
                      TestCases := testCases; KeysOnly := KeysOnly cfg;
                      Timeout := Timeout cfg |} = estimatedTime cfg).
Proof.
  split; [|split].
  - unfold estimatedTime.
    generalize (wrap64 (wrap64 (Z.of_nat (length (Commands cfg)) *
                                Z.of_nat (size (Versions cfg))) * GetTimeout cfg)).
    intros z. unfold WriteTimeout, Minute, Second.
    repeat case_decide; lia.
  - unfold estimatedTime. intros ->. cbn [length].
    by rewrite Z.mul_0_l.
  - done.
Qed.

End server_extras.

(** ** The further properties on concrete inputs *)

Section more_examples.
Import comparator config executor executor_defaults core spec fixtures.
Import invariants doubles.

Lemma fairRange_exampleLib : config_validation.fairRange (lib := exampleLib).
Proof. by intros entries. Qed.


Lemma no_top_level_changes_full_mode_witness :
  ∃ r, CompareWithOptions (codec := exampleCodec) (difflib := wholeDiff)
         (patchlib := rootPatch) text_a1 text_a1 "v1.json" "v2.json"
         {| comparator.KeysOnly := false |} = Ok r ∧
       Summary r = "No top-level changes" ∧ IsJSON r = true.
Proof.
  destruct (CompareWithOptions (codec := exampleCodec) (difflib := wholeDiff)
              (patchlib := rootPatch) text_a1 text_a1 "v1.json" "v2.json"
              {| comparator.KeysOnly := false |}) as [r|e] eqn:Hr;
    [|by vm_compute in Hr].
  assert (Summary r = "No top-level changes") as Hs.
  { revert Hr. vm_compute. by intros [= <-]. }
  destruct (no_top_level_changes_full_mode (codec := exampleCodec)
              (difflib := wholeDiff) (patchlib := rootPatch)
              text_a1 text_a1 "v1.json" "v2.json"
              {| comparator.KeysOnly := false |} r Hr Hs) as [H1 _].
  exists r. auto.
Defined.

Lemma compare_with_itself_witness :
  ∃ r, CompareWithOptions (codec := exampleCodec) (difflib := wholeDiff)
         (patchlib := rootPatch) text_a1_b2 text_a1_b2 "v1.json" "v2.json"
         {| comparator.KeysOnly := false |} = Ok r ∧
       Summary r = "No top-level changes".
Proof.
  apply (compare_with_itself (codec := exampleCodec) (difflib := wholeDiff)
           (patchlib := rootPatch) text_a1_b2 "v1.json" "v2.json"
           {| comparator.KeysOnly := false |} object_a1_b2 []).
  - evaluate.
  - evaluate.
  - intros _. apply Forall_forall. intros x Hx.
    assert (x = JNumber 1 ∨ x = JNumber 2) as [-> | ->].
    { revert Hx. vm_compute. intros Hx.
      repeat (apply elem_of_cons in Hx as [->|Hx]; [auto|]).
      by apply elem_of_nil in Hx. }
    + eexists. evaluate.
    + eexists. evaluate.
Defined.

Lemma outcome_file_excludes_error_witness :
  Forall (λ r, Forall (λ e,
    ExecInfo_File e ≠ "" → ExecInfo_Error e = "" ∧ ExecInfo_TimedOut e = false)
    (CommandResult_ExecInfo r))
    (CommandResults
       (RunWithContext (codec := exampleCodec) (difflib := wholeDiff)
          (patchlib := rootPatch) (sys := middleFails) (env := twoFiles)
          inOrder threeVersions).1).
Proof.
  apply (outcome_file_excludes_error (codec := exampleCodec)
           (difflib := wholeDiff) (patchlib := rootPatch) (sys := middleFails)
           (env := twoFiles) inOrder threeVersions).
  exact fair_inOrder.
Defined.

Lemma version_without_command_witness :
  ∃ r, CommandResults
         (RunWithContext (codec := exampleCodec) (difflib := wholeDiff)
            (patchlib := rootPatch) (sys := allSucceed) (env := twoFiles)
            inOrder partialMatrix).1 !! 0 = Some r ∧
       ExecInfo_Version <$> CommandResult_ExecInfo r = ["a"] ∧
       VersionDiff_Error <$> Diffs r =
         ["failed to get responses for version(s): c"].
Proof.
  destruct (version_without_command (codec := exampleCodec)
              (difflib := wholeDiff) (patchlib := rootPatch) (sys := allSucceed)
              (env := twoFiles) inOrder partialMatrix 0
              {| TestCase_Name := "users";
                 TestCase_Commands := {[ "a" := "curl {{BASE_URL}}/users/1" ]} |}
              "c") as (r & Hr & _).
  - exact fair_inOrder.
  - reflexivity.
  - vm_compute. lia.
  - evaluate.
  - exists r. split; [exact Hr|].
    revert Hr. vm_compute. intros [= <-]. split; reflexivity.
Defined.

Lemma nonpositive_timeout_is_default_witness :
  Execute (sys := allSucceed) 0 "curl {{BASE_URL}}/users/1" "a" "http://a.test" (-5)
  = ExecuteWithDefaults (sys := allSucceed) 0 "curl {{BASE_URL}}/users/1" "a"
      "http://a.test".
Proof.
  apply (nonpositive_timeout_is_default (codec := exampleCodec)
           (difflib := wholeDiff) (patchlib := rootPatch) (sys := allSucceed)
           (env := twoFiles) inOrder twoVersions (-1) 0
           "curl {{BASE_URL}}/users/1" "a" "http://a.test" (-5)); lia.
Defined.

Lemma valid_configuration_witness :
  config_validation.IsValid
    (config_validation.Validate (lib := exampleLib) matrix) = true ∧
  GetTestCases matrix ≠ [] ∧ (0 ≤ Timeout matrix)%Z.
Proof.
  assert (config_validation.IsValid
            (config_validation.Validate (lib := exampleLib) matrix) = true)
    as Hvalid by evaluate.
  destruct (valid_configuration (lib := exampleLib) matrix
              fairRange_exampleLib Hvalid) as (_ & _ & Htc & _ & _ & Ht).
  auto.
Defined.

Lemma commands_ignored_witness :
  RunWithContext (codec := exampleCodec) (difflib := wholeDiff)
    (patchlib := rootPatch) (sys := allSucceed) (env := twoFiles) inOrder
    {| Versions := Versions matrix; Commands := [];
       TestCases := TestCases matrix; KeysOnly := KeysOnly matrix;
       Timeout := Timeout matrix |} =
  RunWithContext (codec := exampleCodec) (difflib := wholeDiff)
    (patchlib := rootPatch) (sys := allSucceed) (env := twoFiles) inOrder matrix.
Proof.
  apply (commands_ignored (codec := exampleCodec) (difflib := wholeDiff)
           (patchlib := rootPatch) (sys := allSucceed) (env := twoFiles)
           (lib := exampleLib) matrix [] inOrder).
  discriminate.
Defined.

Lemma sanitizeFilename_clean_witness : storage.sanitizeFilename "v1" = "v1".
Proof.
  apply (sanitizeFilename_clean "v1").
  - discriminate.
  - vm_compute. lia.
  - repeat constructor.
  - intros i [H1 H2]. by do 3 (destruct i as [|i]; [done|]).
  - discriminate.
  - discriminate.
Defined.

Lemma updateIndex_NoDup_witness :
  NoDup (storage.CommandHash <$>
         storage.Commands (storage.updateIndex oneEntry "curl b" "41d0" failedRun)).
Proof.
  apply (updateIndex_NoDup oneEntry "curl b" "41d0" failedRun).
  apply NoDup_singleton.
Defined.

Lemma SaveResponse_without_file_witness :
  Forall (λ w, w.1 = "responses/index.json")
    (storage.SaveResponse (os := scriptedOS (λ _, false)) 0 emptyStore
       "curl {{BASE_URL}}/users/1" "v1" None (Some "exit status 7")).2.
Proof.
  destruct (SaveResponse_without_file (os := scriptedOS (λ _, false)) 0
              emptyStore "curl {{BASE_URL}}/users/1" "v1" None
              (Some "exit status 7")) as (_ & H & _).
  - left. eauto.
  - reflexivity.
  - exact H.
Defined.

End more_examples.
